(** * Contact directory aggregator of lanner: [src/lib/contacts.ts]

    A shallow embedding of the contact aggregation routine (three sources,
    merge by email with a fixed priority, a 24 hour cache) and of the
    additive merge its caller performs on search results
    ([src/components/MentionList.tsx]), with the properties the
    specification states about them; and of the mention dropdown, the
    mention detection and selection of [handleInput] and
    [handleSelectContact], and the plan [handleGenerate] builds, with
    properties read off the code.

    Conventions of the embedding:
    - a JavaScript string is a [string]; [String.length] stands for [.length];
    - an optional property ([photoUrl?: string], [names?.[0]]) is an [option];
      a value is falsy when it is absent or the empty string;
    - a [Map<string, Contact>] is an association list in insertion order,
      which is the order [map.values()] enumerates;
    - [async] functions are programs over the calls they await (storage,
      identity, network, clock), interpreted against an arbitrary handler;
      [console] output is not modelled. *)

From Stdlib Require Import List String Ascii ZArith Bool Lia.
Import ListNotations.

Local Open Scope string_scope.
Local Open Scope list_scope.

(** ** Data model *)

(** [interface Contact] (contacts.ts, lines 3-9). *)
Module Contact.
Record t : Type := mk {
    id : string;
    name : string;
    email : string;
    photoUrl : option string;
    lastContacted : option Z
  }.
End Contact.

(** [Map<string, V>]: insertion-ordered, [set] on a key already present
    replaces the value and keeps the key's position. *)
Module JsMap.
Section Ops.
Context {V : Type}.

Definition t : Type := list (string * V).

Definition empty : t := [].

Fixpoint get (m : t) (k : string) : option V :=
  match m with
  | [] => None
  | (k', v) :: m' => if String.eqb k' k then Some v else get m' k
  end.

Definition has (m : t) (k : string) : bool :=
  match get m k with Some _ => true | None => false end.

Fixpoint set (m : t) (k : string) (v : V) : t :=
  match m with
  | [] => [(k, v)]
  | (k', v') :: m' =>
      if String.eqb k' k then (k', v) :: m' else (k', v') :: set m' k v
  end.

Definition keys (m : t) : list string := map fst m.

Definition values (m : t) : list V := map snd m.
End Ops.
Arguments t : clear implicits.
End JsMap.

(** ** The merge of [fetchAllContacts] (contacts.ts, lines 55-75) *)

(** [connections.forEach(c => map.set(c.email, c))] *)
Definition recordAll (m : JsMap.t Contact.t) (l : list Contact.t) : JsMap.t Contact.t :=
  fold_left (fun m c => JsMap.set m (Contact.email c) c) l m.

(** [l.forEach(c => { if (!map.has(c.email)) map.set(c.email, c) })] *)
Definition recordMissing (m : JsMap.t Contact.t) (l : list Contact.t) : JsMap.t Contact.t :=
  fold_left
    (fun m c =>
       if negb (JsMap.has m (Contact.email c))
       then JsMap.set m (Contact.email c) c
       else m)
    l m.

Definition mergeContacts (connections otherContacts recentAttendees : list Contact.t)
  : list Contact.t :=
  let map := JsMap.empty in
  let map := recordAll map connections in
  let map := recordMissing map otherContacts in
  let map := recordMissing map recentAttendees in
  JsMap.values map.

(** The entry a contact list holds for an email: the first one carrying it. *)
Definition entry (e : string) (l : list Contact.t) : option Contact.t :=
  find (fun c => String.eqb (Contact.email c) e) l.

(** The last contact of a list that carries an email. *)
Definition lastEntry (e : string) (l : list Contact.t) : option Contact.t :=
  entry e (rev l).

(** ** JavaScript values in string position *)

(** Truthiness of an optional string: absent and [""] are falsy. *)
Definition truthy (s : option string) : bool :=
  match s with
  | Some s => negb (String.eqb s "")
  | None => false
  end.

(** [a || b] where both sides may be absent. *)
Definition orElse (a b : option string) : option string :=
  if truthy a then a else b.

(** [a || d] where [d] is a string. *)
Definition orDefault (a : option string) (d : string) : string :=
  match a with
  | Some s => if String.eqb s "" then d else s
  | None => d
  end.

(** Truthiness of an optional boolean flag ([att.self], [att.resource]). *)
Definition flagged (b : option bool) : bool :=
  match b with
  | Some true => true
  | _ => false
  end.

(** [l?.[0]] *)
Definition first {A : Type} (l : option (list A)) : option A :=
  match l with
  | Some (x :: _) => Some x
  | _ => None
  end.

(** [o?.f] *)
Definition chain {A B : Type} (o : option A) (f : A -> option B) : option B :=
  match o with
  | Some a => f a
  | None => None
  end.

(** [.filter(c => c !== null)] *)
Fixpoint filterNotNull {A : Type} (l : list (option A)) : list A :=
  match l with
  | [] => []
  | Some a :: l' => a :: filterNotNull l'
  | None :: l' => filterNotNull l'
  end.

(** [s.split('@')[0]]: what precedes the first ['@'], the whole string when
    there is none. *)
Fixpoint beforeAt (s : string) : string :=
  match s with
  | EmptyString => EmptyString
  | String c s' => if Ascii.eqb c "@"%char then EmptyString else String c (beforeAt s')
  end.

(** ** Shapes of the responses the code reads *)

(** A person of the People API, with the fields the read mask asks for. *)
Module Person.
Record Name : Type := mkName { displayName : option string }.
Record EmailAddress : Type := mkEmail { value : option string }.
Record Photo : Type := mkPhoto { url : option string }.
Record t : Type := mk {
    resourceName : option string;
    names : option (list Name);
    emailAddresses : option (list EmailAddress);
    photos : option (list Photo)
  }.
End Person.

(** An entry of [data.results] of the search endpoint. *)
Module SearchResult.
Record t : Type := mk { person : option Person.t }.
End SearchResult.

(** An attendee of a calendar event. *)
Module Attendee.
Record t : Type := mk {
    email : option string;
    displayName : option string;
    self : option bool;
    resource : option bool
  }.
End Attendee.

Module CalEvent.
Record t : Type := mk { attendees : option (list Attendee.t) }.
End CalEvent.

(** The parsed body of a response: an object that may carry any of the list
    fields the four endpoints answer with. *)
Module Body.
Record t : Type := mk {
    connections : option (list Person.t);
    otherContacts : option (list Person.t);
    results : option (list SearchResult.t);
    items : option (list CalEvent.t)
  }.
End Body.

(** ** The mapping from a source entry to a [Contact] *)

(** The callback of [list.map] in [fetchPeople] (lines 182-195) and, on
    [result.person], in [searchContacts] (lines 95-107). *)
Definition personToContact (item : Person.t) : option Contact.t :=
  let name :=
    orDefault
      (orElse (chain (first (Person.names item)) Person.displayName)
              (chain (first (Person.emailAddresses item)) Person.value))
      "Unknown" in
  let email := chain (first (Person.emailAddresses item)) Person.value in
  let photoUrl := chain (first (Person.photos item)) Person.url in
  match email with
  | Some email =>
      if negb (truthy (Some email)) then None
      else Some {| Contact.id := orDefault (Person.resourceName item) email;
                   Contact.name := name;
                   Contact.email := email;
                   Contact.photoUrl := photoUrl;
                   Contact.lastContacted := None |}
  | None => None
  end.

(** The callback of [event.attendees.forEach] (lines 146-157). *)
Definition recordAttendee (contactsMap : JsMap.t Contact.t) (att : Attendee.t)
  : JsMap.t Contact.t :=
  match Attendee.email att with
  | Some email =>
      if truthy (Some email)
         && negb (flagged (Attendee.self att))
         && negb (flagged (Attendee.resource att))
      then
        if negb (JsMap.has contactsMap email)
        then JsMap.set contactsMap email
               {| Contact.id := email;
                  Contact.name := orDefault (Attendee.displayName att) (beforeAt email);
                  Contact.email := email;
                  Contact.photoUrl := None;
                  Contact.lastContacted := None |}
        else contactsMap
      else contactsMap
  | None => contactsMap
  end.

(** The callback of [data.items.forEach] (lines 144-159). *)
Definition recordEvent (contactsMap : JsMap.t Contact.t) (event : CalEvent.t)
  : JsMap.t Contact.t :=
  match CalEvent.attendees event with
  | Some attendees => fold_left recordAttendee attendees contactsMap
  | None => contactsMap
  end.

(** Lines 142-161 of [fetchRecentAttendees]: the contacts of the items. *)
Definition attendeeContacts (items : list CalEvent.t) : list Contact.t :=
  JsMap.values (fold_left recordEvent items JsMap.empty).

(** ** The caller's merge of search results (MentionList.tsx, lines 380-388) *)

(** The updater handed to [setContacts]: [combined] starts as a copy of
    [prev]; a result is pushed unless some element of [combined] already has
    its email. *)
Definition combined (prev results : list Contact.t) : list Contact.t :=
  fold_left
    (fun combined r =>
       if negb (existsb (fun c => String.eqb (Contact.email c) (Contact.email r)) combined)
       then combined ++ [r]
       else combined)
    results prev.

(** The contact list held after [handleInput] received [results]
    (lines 378-389): the updater runs only when there are results. *)
Definition afterSearch (prev results : list Contact.t) : list Contact.t :=
  if (0 <? List.length results)%nat then combined prev results else prev.

(** ** Calls to the outside and asynchronous programs *)

(** What a rejected promise or a [throw] carries. *)
Inductive Error : Type :=
| TypeError
| SyntaxError
| Failure (reason : string).

(** A settled promise. *)
Inductive Outcome (A : Type) : Type :=
| Resolved (a : A)
| Rejected (e : Error).
Arguments Resolved {A} a.
Arguments Rejected {A} e.

(** [interface ContactsCache] (contacts.ts, lines 14-17). *)
Record ContactsCache : Type := mkCache {
  data : list Contact.t;
  timestamp : Z
}.

Definition CACHE_KEY : string := "lanner_contacts_cache".
Definition CACHE_DURATION : Z := 24 * 60 * 60 * 1000.

(** What [fetch] resolves to: the status flag and what [res.json()] settles
    to. *)
Record Response : Type := mkResponse {
  ok : bool;
  json : Outcome Body.t
}.

(** The URLs the code requests, by endpoint and by the part that varies. *)
Inductive Endpoint : Type :=
| Connections                       (* /v1/people/me/connections?...&pageSize=1000 *)
| OtherContacts                     (* /v1/otherContacts?...&pageSize=1000 *)
| OtherContactsSearch (query : string)  (* /v1/otherContacts:search?query=... *)
| CalendarEvents (timeMin : Z).     (* /calendar/v3/calendars/primary/events?...&timeMin=...&maxResults=250 *)

(** The calls the code makes, indexed by what they answer.
    [getAuthToken] is imported from [./calendar], which is not among the
    sources: it is a call like the others, answered by the outside with a
    token or a rejection. *)
Inductive Call : Type -> Type :=
| StorageGet (key : string) : Call (Outcome (option ContactsCache))
| StorageSet (key : string) (v : ContactsCache) : Call (Outcome unit)
| GetAuthToken (interactive : bool) : Call (Outcome string)
| Fetch (url : Endpoint) (bearer : string) : Call (Outcome Response)
| DateNow : Call Z.

(** An asynchronous function body: it returns, throws, or makes a call and
    goes on with the answer. *)
Inductive Prog (A : Type) : Type :=
| Ret (a : A)
| Throw (e : Error)
| Vis {R : Type} (c : Call R) (k : R -> Prog A).
Arguments Ret {A} a.
Arguments Throw {A} e.
Arguments Vis {A R} c k.

Fixpoint bind {A B : Type} (p : Prog A) (f : A -> Prog B) : Prog B :=
  match p with
  | Ret a => f a
  | Throw e => Throw e
  | Vis c k => Vis c (fun r => bind (k r) f)
  end.

(** [try { p } catch (e) { h e }] *)
Fixpoint tryCatch {A : Type} (p : Prog A) (h : Error -> Prog A) : Prog A :=
  match p with
  | Ret a => Ret a
  | Throw e => h e
  | Vis c k => Vis c (fun r => tryCatch (k r) h)
  end.

(** A call that cannot fail. *)
Definition call {R : Type} (c : Call R) : Prog R := Vis c Ret.

(** A promise that has settled: its value, or a throw of its reason. *)
Definition settle {A : Type} (o : Outcome A) : Prog A :=
  match o with
  | Resolved a => Ret a
  | Rejected e => Throw e
  end.

(** [await c] *)
Definition await {A : Type} (c : Call (Outcome A)) : Prog A := Vis c settle.

(** [l.map(f)] for a callback that may throw. *)
Fixpoint mapM {A B : Type} (f : A -> Prog B) (l : list A) : Prog (list B) :=
  match l with
  | [] => Ret []
  | a :: l' => bind (f a) (fun b => bind (mapM f l') (fun bs => Ret (b :: bs)))
  end.

Declare Scope prog_scope.
Delimit Scope prog_scope with prog.
Notation "x <- p ;; q" := (bind p (fun x => q))
  (at level 100, p at next level, right associativity) : prog_scope.
Notation "p ;; q" := (bind p (fun _ => q))
  (at level 100, right associativity) : prog_scope.
Local Open Scope prog_scope.

(** ** The functions of contacts.ts *)

(** [fetchPeople] (lines 169-200). *)
Definition fetchPeople (url : Endpoint) (token : string) (isOther : bool)
  : Prog (list Contact.t) :=
  tryCatch
    (res <- await (Fetch url token) ;;
     if negb (ok res) then Ret [] else
     data <- settle (json res) ;;
     let list := if isOther then Body.otherContacts data else Body.connections data in
     match list with
     | None => Ret []
     | Some list => Ret (filterNotNull (map personToContact list))
     end)
    (fun _ => Ret []).

(** [fetchConnections] (lines 115-118). *)
Definition fetchConnections (token : string) : Prog (list Contact.t) :=
  fetchPeople Connections token false.

(** [fetchOtherContacts] (lines 120-123). *)
Definition fetchOtherContacts (token : string) : Prog (list Contact.t) :=
  fetchPeople OtherContacts token true.

(** [fetchRecentAttendees] (lines 125-167). *)
Definition fetchRecentAttendees (token : string) : Prog (list Contact.t) :=
  tryCatch
    (now <- call DateNow ;;
     let thirtyDaysAgo := (now - 30 * 24 * 60 * 60 * 1000)%Z in
     res <- await (Fetch (CalendarEvents thirtyDaysAgo) token) ;;
     if negb (ok res) then Ret [] else
     data <- settle (json res) ;;
     match Body.items data with
     | None => Ret []
     | Some items => Ret (attendeeContacts items)
     end)
    (fun _ => Ret []).

(** [fetchAllContacts] (lines 47-76). The three functions are started in
    this order and each issues its request before it first suspends, so the
    requests leave in this order; each branch reads its own response only,
    and the join is the sequence of the three. *)
Definition fetchAllContacts (token : string) : Prog (list Contact.t) :=
  connections <- fetchConnections token ;;
  otherContacts <- fetchOtherContacts token ;;
  recentAttendees <- fetchRecentAttendees token ;;
  Ret (mergeContacts connections otherContacts recentAttendees).

(** The [try] statement of [getContacts] (lines 29-44). *)
Definition refreshContacts : Prog (list Contact.t) :=
  tryCatch
    (token <- await (GetAuthToken false) ;;
     contacts <- fetchAllContacts token ;;
     now <- call DateNow ;;
     await (StorageSet CACHE_KEY {| data := contacts; timestamp := now |}) ;;
     Ret contacts)
    (fun _ => Ret []).

(** [getContacts] (lines 19-45). *)
Definition getContacts (forceRefresh : bool) : Prog (list Contact.t) :=
  if negb forceRefresh then
    cache <- await (StorageGet CACHE_KEY) ;;
    match cache with
    | Some cachedData =>
        now <- call DateNow ;;
        if (now - timestamp cachedData <? CACHE_DURATION)%Z
        then Ret (data cachedData)
        else refreshContacts
    | None => refreshContacts
    end
  else refreshContacts.

(** [searchContacts] (lines 78-113). *)
Definition searchContacts (query : string) : Prog (list Contact.t) :=
  if negb (truthy (Some query)) || (String.length query <? 2)%nat then Ret [] else
  tryCatch
    (token <- await (GetAuthToken false) ;;
     res <- await (Fetch (OtherContactsSearch query) token) ;;
     if negb (ok res) then Ret [] else
     data <- settle (json res) ;;
     match Body.results data with
     | None => Ret []
     | Some results =>
         mapped <- mapM (fun result =>
                           match SearchResult.person result with
                           | Some item => Ret (personToContact item)
                           | None => Throw TypeError
                           end) results ;;
         Ret (filterNotNull mapped)
     end)
    (fun _ => Ret []).

(** ** Running a program *)

(** A call as it appears in a trace. *)
Inductive Event : Type :=
| Called {R : Type} (c : Call R).

Definition isFetch (ev : Event) : bool :=
  match ev with
  | Called (Fetch _ _) => true
  | _ => false
  end.

Definition isGetAuthToken (ev : Event) : bool :=
  match ev with
  | Called (GetAuthToken _) => true
  | _ => false
  end.

Definition isStorageSet (ev : Event) : bool :=
  match ev with
  | Called (StorageSet _ _) => true
  | _ => false
  end.

(** What the outside answers to a call, in a state of its own. *)
Definition Handler (W : Type) : Type := forall R : Type, Call R -> W -> R * W.

(** What a run yields: how the promise settles, the state the outside is
    left in, and the calls made, in order. *)
Record Run (A W : Type) : Type := mkRun {
  settled : Outcome A;
  final : W;
  trace : list Event
}.
Arguments mkRun {A W} settled final trace.
Arguments settled {A W} r.
Arguments final {A W} r.
Arguments trace {A W} r.

Fixpoint run {A W : Type} (handle : Handler W) (p : Prog A) (w : W) : Run A W :=
  match p with
  | Ret a => mkRun (Resolved a) w []
  | Throw e => mkRun (Rejected e) w []
  | Vis c k =>
      let (r, w') := handle _ c w in
      let rest := run handle (k r) w' in
      mkRun (settled rest) (final rest) (Called c :: trace rest)
  end.

(** A program none of whose paths throws. *)
Inductive NoThrow {A : Type} : Prog A -> Prop :=
| NoThrow_Ret a : NoThrow (Ret a)
| NoThrow_Vis {R : Type} (c : Call R) k : (forall r, NoThrow (k r)) -> NoThrow (Vis c k).

(** ** A browser: storage that keeps what was set, and a clock *)

Module Chrome.
Record World : Type := mkWorld {
  clock : Z;                                  (* what [Date.now()] answers *)
  latency : Z;                                (* time an awaited call takes *)
  stored : string -> option ContactsCache;    (* [chrome.storage.local] *)
  readFault : option Error;                   (* [storage.get] rejects with *)
  writeFault : option Error;                  (* [storage.set] rejects with *)
  identity : Outcome string;                  (* [getAuthToken(false)] *)
  network : Endpoint -> Outcome Response      (* [fetch] *)
  }.

Definition elapse (w : World) : World :=
  {| clock := (clock w + latency w)%Z; latency := latency w; stored := stored w;
     readFault := readFault w; writeFault := writeFault w;
     identity := identity w; network := network w |}.

Definition store (key : string) (v : ContactsCache) (w : World) : World :=
  {| clock := clock w; latency := latency w;
     stored := fun k => if String.eqb k key then Some v else stored w k;
     readFault := readFault w; writeFault := writeFault w;
     identity := identity w; network := network w |}.

Definition handle : Handler World :=
  fun R c =>
    match c in Call R return World -> R * World with
    | StorageGet key => fun w =>
        (match readFault w with
         | Some e => Rejected e
         | None => Resolved (stored w key)
         end, elapse w)
    | StorageSet key v => fun w =>
        match writeFault w with
        | Some e => (Rejected e, elapse w)
        | None => (Resolved tt, elapse (store key v w))
        end
    | GetAuthToken _ => fun w => (identity w, elapse w)
    | Fetch url _ => fun w => (network w url, elapse w)
    | DateNow => fun w => (clock w, w)
    end.
End Chrome.

(** ** What the maps of the merge keep *)

(** Every entry of a map of contacts sits under its own email. *)
Definition Keyed (m : JsMap.t Contact.t) : Prop :=
  Forall (fun kv => Contact.email (snd kv) = fst kv) m.

(** What the two loops keep: entries under their emails, no key twice. *)
Definition Sound (m : JsMap.t Contact.t) : Prop :=
  Keyed m /\ NoDup (JsMap.keys m).

(** ** Sample contacts *)

(** Two sources disagreeing on the name behind [a@x.com]. *)
Definition ann : Contact.t :=
  {| Contact.id := "people/c1"; Contact.name := "Ann"; Contact.email := "a@x.com";
     Contact.photoUrl := None; Contact.lastContacted := None |}.
Definition annie : Contact.t :=
  {| Contact.id := "otherContacts/c7"; Contact.name := "Annie"; Contact.email := "a@x.com";
     Contact.photoUrl := None; Contact.lastContacted := None |}.
Definition bob : Contact.t :=
  {| Contact.id := "bob@x.com"; Contact.name := "bob"; Contact.email := "bob@x.com";
     Contact.photoUrl := None; Contact.lastContacted := None |}.

(** ** The caller's merge, as specified and as performed *)

(** Whether a list holds a contact with this email:
    [l.some(c => c.email === e)]. *)
Definition known (l : list Contact.t) (e : string) : bool :=
  existsb (fun c => String.eqb (Contact.email c) e) l.

(** The specification's reading of the caller's merge: the prior list,
    followed by the results whose email the prior list does not hold. *)
Definition appendUnknown (prev results : list Contact.t) : list Contact.t :=
  prev ++ filter (fun r => negb (known prev (Contact.email r))) results.

(** The results that reach the list: those whose email neither the prior
    list nor an earlier result of the batch ([earlier]) holds. *)
Fixpoint newcomers (prev earlier results : list Contact.t) : list Contact.t :=
  match results with
  | [] => []
  | r :: rs =>
      if negb (known prev (Contact.email r)) && negb (known earlier (Contact.email r))
      then r :: newcomers prev (earlier ++ [r]) rs
      else newcomers prev (earlier ++ [r]) rs
  end.

(** ** The recent-attendees loop, attendee by attendee *)

(** The guard of line 147: an email, and neither flag. *)
Definition eligible (att : Attendee.t) : bool :=
  truthy (Attendee.email att)
  && negb (flagged (Attendee.self att))
  && negb (flagged (Attendee.resource att)).

(** The contact lines 149-154 build for an eligible attendee. *)
Definition attendeeToContact (att : Attendee.t) : option Contact.t :=
  match Attendee.email att with
  | Some email =>
      if eligible att
      then Some {| Contact.id := email;
                   Contact.name := orDefault (Attendee.displayName att) (beforeAt email);
                   Contact.email := email;
                   Contact.photoUrl := None;
                   Contact.lastContacted := None |}
      else None
  | None => None
  end.

(** The attendees of all items, in the order the two loops visit them. *)
Definition allAttendees (items : list CalEvent.t) : list Attendee.t :=
  flat_map (fun event =>
              match CalEvent.attendees event with
              | Some attendees => attendees
              | None => []
              end) items.

(** A meeting with the user, a room, an attendee without email and bob. *)
Definition meeting : CalEvent.t :=
  {| CalEvent.attendees := Some
       [ {| Attendee.email := Some "me@x.com"; Attendee.displayName := Some "Me";
            Attendee.self := Some true; Attendee.resource := None |};
         {| Attendee.email := Some "room@x.com"; Attendee.displayName := Some "Room 4";
            Attendee.self := None; Attendee.resource := Some true |};
         {| Attendee.email := None; Attendee.displayName := Some "Guest";
            Attendee.self := None; Attendee.resource := None |};
         {| Attendee.email := Some "bob@x.com"; Attendee.displayName := None;
            Attendee.self := Some false; Attendee.resource := None |} ] |}.

(** ** Composition of runs *)

(** A run preceded by calls already made. *)
Definition after {A W : Type} (evs : list Event) (r : Run A W) : Run A W :=
  mkRun (settled r) (final r) (evs ++ trace r).

(** A run continued, when it resolved, by the run its value leads to. *)
Definition andThen {A B W : Type} (r : Run A W) (k : A -> W -> Run B W) : Run B W :=
  match settled r with
  | Resolved a => after (trace r) (k a (final r))
  | Rejected e => mkRun (Rejected e) (final r) (trace r)
  end.

(** A run continued, when it rejected, by the run of the handler. *)
Definition orCatch {A W : Type} (r : Run A W) (k : Error -> W -> Run A W) : Run A W :=
  match settled r with
  | Resolved a => r
  | Rejected e => after (trace r) (k e (final r))
  end.

(** ** The sources, by what their requests settle to *)

(** What [fetchPeople] returns, by what its request settled to. *)
Definition peopleOf (isOther : bool) (o : Outcome Response) : list Contact.t :=
  match o with
  | Resolved res =>
      if ok res then
        match json res with
        | Resolved data =>
            match (if isOther then Body.otherContacts data else Body.connections data) with
            | Some list => filterNotNull (map personToContact list)
            | None => []
            end
        | Rejected _ => []
        end
      else []
  | Rejected _ => []
  end.

(** What [fetchRecentAttendees] returns, by what its request settled to. *)
Definition attendeesOf (o : Outcome Response) : list Contact.t :=
  match o with
  | Resolved res =>
      if ok res then
        match json res with
        | Resolved data =>
            match Body.items data with
            | Some items => attendeeContacts items
            | None => []
            end
        | Rejected _ => []
        end
      else []
  | Rejected _ => []
  end.

(** A request that failed for a source reading the list [field]: it threw,
    or answered a non-success status, or its body did not parse, or the
    body lacks the list. *)
Definition Failed {X : Type} (field : Body.t -> option X) (o : Outcome Response) : Prop :=
  match o with
  | Rejected _ => True
  | Resolved res =>
      ok res = false
      \/ (exists e, json res = Rejected e)
      \/ (exists data, json res = Resolved data /\ field data = None)
  end.

(** The look-back of [fetchRecentAttendees] (line 129). *)
Definition thirtyDays : Z := 30 * 24 * 60 * 60 * 1000.

(** ** The shared mapping rule, in the specification's words *)

(** A value a source supplies: present and not empty. *)
Definition available (s : option string) : option string :=
  match s with
  | Some s => if String.eqb s "" then None else Some s
  | None => None
  end.

(** The mapping rule in the specification's words, over the display name,
    the email string, the photo URL and the resource identifier an entry
    offers: without an email the entry is discarded; the name is the display
    name, else the email string, else ["Unknown"]; the id is the resource
    identifier, else the email. *)
Definition sharedRule (displayName emailString photo resourceId : option string)
  : option Contact.t :=
  match available emailString with
  | None => None
  | Some email =>
      Some {| Contact.id := match available resourceId with
                            | Some r => r
                            | None => email
                            end;
              Contact.name := match available displayName with
                              | Some n => n
                              | None => match available emailString with
                                        | Some e => e
                                        | None => "Unknown"
                                        end
                              end;
              Contact.email := email;
              Contact.photoUrl := photo;
              Contact.lastContacted := None |}
  end.

(** The rule on a person: the first entry of each of its lists. *)
Definition personByRule (item : Person.t) : option Contact.t :=
  sharedRule (chain (first (Person.names item)) Person.displayName)
             (chain (first (Person.emailAddresses item)) Person.value)
             (chain (first (Person.photos item)) Person.url)
             (Person.resourceName item).

(** ** A directory and some browsers to run against *)

Definition annPerson : Person.t :=
  {| Person.resourceName := Some "people/c1";
     Person.names := Some [ {| Person.displayName := Some "Ann" |} ];
     Person.emailAddresses := Some [ {| Person.value := Some "a@x.com" |} ];
     Person.photos := None |}.

Definition anniePerson : Person.t :=
  {| Person.resourceName := Some "otherContacts/c7";
     Person.names := Some [ {| Person.displayName := Some "Annie" |} ];
     Person.emailAddresses := Some [ {| Person.value := Some "a@x.com" |} ];
     Person.photos := None |}.

Definition carolPerson : Person.t :=
  {| Person.resourceName := Some "otherContacts/c9";
     Person.names := None;
     Person.emailAddresses := Some [ {| Person.value := Some "carol@x.com" |} ];
     Person.photos := Some [ {| Person.url := Some "https://lh3.example/carol" |} ] |}.

Definition carol : Contact.t :=
  {| Contact.id := "otherContacts/c9"; Contact.name := "carol@x.com";
     Contact.email := "carol@x.com";
     Contact.photoUrl := Some "https://lh3.example/carol";
     Contact.lastContacted := None |}.

Definition alicePerson : Person.t :=
  {| Person.resourceName := None;
     Person.names := Some [ {| Person.displayName := Some "Alice" |} ];
     Person.emailAddresses := Some [ {| Person.value := Some "alice@x.com" |} ];
     Person.photos := None |}.

Definition alice : Contact.t :=
  {| Contact.id := "alice@x.com"; Contact.name := "Alice"; Contact.email := "alice@x.com";
     Contact.photoUrl := None; Contact.lastContacted := None |}.

Definition okJson (connections otherContacts : option (list Person.t))
                  (results : option (list SearchResult.t))
                  (items : option (list CalEvent.t)) : Outcome Response :=
  Resolved {| ok := true;
              json := Resolved {| Body.connections := connections;
                                  Body.otherContacts := otherContacts;
                                  Body.results := results;
                                  Body.items := items |} |}.

(** Every endpoint answers. *)
Definition directory (url : Endpoint) : Outcome Response :=
  match url with
  | Connections => okJson (Some [annPerson]) None None None
  | OtherContacts => okJson None (Some [anniePerson; carolPerson]) None None
  | OtherContactsSearch _ =>
      okJson None None (Some [ {| SearchResult.person := Some alicePerson |} ]) None
  | CalendarEvents _ => okJson None None None (Some [meeting])
  end.

(** The calendar request throws; the two People API requests answer. *)
Definition calendarDown (url : Endpoint) : Outcome Response :=
  match url with
  | CalendarEvents _ => Rejected (Failure "Failed to fetch")
  | _ => directory url
  end.

(** One request throws, one is refused, one lacks its list. *)
Definition allDown (url : Endpoint) : Outcome Response :=
  match url with
  | Connections => Rejected (Failure "Failed to fetch")
  | OtherContacts => Resolved {| ok := false; json := Rejected SyntaxError |}
  | _ => okJson None None None None
  end.

Definition hour : Z := 60 * 60 * 1000.

Definition browser (now : Z) (cache : option ContactsCache)
                   (network : Endpoint -> Outcome Response) : Chrome.World :=
  {| Chrome.clock := now;
     Chrome.latency := 50;
     Chrome.stored := fun key => if String.eqb key CACHE_KEY then cache else None;
     Chrome.readFault := None;
     Chrome.writeFault := None;
     Chrome.identity := Resolved "ya29.a0";
     Chrome.network := network |}.

(** A browser whose storage read rejects. *)
Definition storageDown : Chrome.World :=
  {| Chrome.clock := 1700000000000;
     Chrome.latency := 50;
     Chrome.stored := fun _ => None;
     Chrome.readFault := Some (Failure "storage unavailable");
     Chrome.writeFault := None;
     Chrome.identity := Resolved "ya29.a0";
     Chrome.network := directory |}.

(** A browser holding a cache one hour old, and one holding a cache 25
    hours old. *)
Definition freshBrowser : Chrome.World :=
  browser 1700000000000
          (Some {| data := [alice]; timestamp := 1700000000000 - hour |})
          directory.

Definition staleBrowser : Chrome.World :=
  browser 1700000000000
          (Some {| data := [alice]; timestamp := 1700000000000 - 25 * hour |})
          directory.

(** ** The order of a merged list *)

(** The strings of a list not among [seen] and not met before, in order:
    the keys a [Map] that already holds [seen] takes on when the list is
    recorded into it. *)
Fixpoint firstSeen (seen l : list string) : list string :=
  match l with
  | [] => []
  | x :: l' =>
      if existsb (String.eqb x) seen
      then firstSeen seen l'
      else x :: firstSeen (seen ++ [x]) l'
  end.

(** ** Kinds of calls in a trace *)

Definition isStorageGet (ev : Event) : bool :=
  match ev with
  | Called (StorageGet _) => true
  | _ => false
  end.

(** A call that cannot open a sign-in prompt. *)
Definition isSilent (ev : Event) : bool :=
  match ev with
  | Called (GetAuthToken interactive) => negb interactive
  | _ => true
  end.

(** A program all of whose calls, on every path, satisfy [P]. *)
Inductive Calls {A : Type} (P : Event -> bool) : Prog A -> Prop :=
| Calls_Ret a : Calls P (Ret a)
| Calls_Throw e : Calls P (Throw e)
| Calls_Vis {R : Type} (c : Call R) k :
    P (Called c) = true -> (forall r, Calls P (k r)) -> Calls P (Vis c k).

(** ** The search path, by what its request settles to *)

(** The persons of the results, when every result has one: what the
    callback of [data.results.map] reads before it can throw. *)
Fixpoint allPersons (results : list SearchResult.t) : option (list Person.t) :=
  match results with
  | [] => Some []
  | result :: rest =>
      match SearchResult.person result, allPersons rest with
      | Some item, Some items => Some (item :: items)
      | _, _ => None
      end
  end.

(** What [searchContacts] returns once its request has settled. *)
Definition searchOf (o : Outcome Response) : list Contact.t :=
  match o with
  | Resolved res =>
      if ok res then
        match json res with
        | Resolved data =>
            match Body.results data with
            | Some results =>
                match allPersons results with
                | Some items => filterNotNull (map personToContact items)
                | None => []
                end
            | None => []
            end
        | Rejected _ => []
        end
      else []
  | Rejected _ => []
  end.

(** ** Characters of a string *)

(** Whether a character occurs in a string. *)
Fixpoint occurs (c : ascii) (s : string) : bool :=
  match s with
  | EmptyString => false
  | String c' s' => Ascii.eqb c' c || occurs c s'
  end.

(** ** More browsers *)

(** A browser whose storage rejects writes. *)
Definition quotaExceeded : Chrome.World :=
  {| Chrome.clock := 1700000000000;
     Chrome.latency := 50;
     Chrome.stored := fun _ => None;
     Chrome.readFault := None;
     Chrome.writeFault := Some (Failure "QUOTA_BYTES quota exceeded");
     Chrome.identity := Resolved "ya29.a0";
     Chrome.network := directory |}.

(** A browser without a silent credential, holding a cache 25 hours old. *)
Definition signedOut : Chrome.World :=
  {| Chrome.clock := 1700000000000;
     Chrome.latency := 50;
     Chrome.stored := fun key =>
       if String.eqb key CACHE_KEY
       then Some {| data := [alice]; timestamp := 1700000000000 - 25 * hour |}
       else None;
     Chrome.readFault := None;
     Chrome.writeFault := None;
     Chrome.identity := Rejected (Failure "OAuth2 not granted or revoked.");
     Chrome.network := directory |}.

(** A search answer in which one result has no [person]. *)
Definition brokenResult (url : Endpoint) : Outcome Response :=
  match url with
  | OtherContactsSearch _ =>
      okJson None None
             (Some [ {| SearchResult.person := Some alicePerson |};
                     {| SearchResult.person := None |} ])
             None
  | _ => directory url
  end.

(** ** One step of the caller's merge *)

(** The callback of [results.forEach] in the updater (MentionList.tsx, lines
    382-386), on the list built so far. *)
Definition pushResult (held : list Contact.t) (r : Contact.t) : list Contact.t :=
  if negb (known held (Contact.email r)) then held ++ [r] else held.

(** ** The mention dropdown (MentionList.tsx, lines 14-55) *)

(** [s.includes(t)]: [t] occurs in [s] as a contiguous run. *)
Fixpoint includes (s t : string) : bool :=
  String.prefix t s
  || match s with
     | EmptyString => false
     | String _ s' => includes s' t
     end.

(** What a key press in the dropdown leads to. *)
Inductive KeyEffect : Type :=
| Unhandled
| SetSelectedIndex (i : Z)
| OnSelect (contact : option Contact.t)
| OnClose.

(** [filtered[i]]: absent when [i] is not an index of the list. *)
Definition itemAt (filtered : list Contact.t) (i : Z) : option Contact.t :=
  if (i <? 0)%Z then None else nth_error filtered (Z.to_nat i).

(** [handleKeyDown] (lines 27-49): the state update or callback the key
    triggers; [Unhandled] leaves the key to the page. [%] is the remainder
    that takes the sign of the dividend. *)
Definition handleKeyDown (filtered : list Contact.t) (isLoading : bool)
                         (selectedIndex : Z) (key : string) : KeyEffect :=
  if (List.length filtered =? 0)%nat || isLoading then Unhandled
  else if String.eqb key "ArrowDown" then
    SetSelectedIndex (Z.rem (selectedIndex + 1) (Z.of_nat (List.length filtered)))
  else if String.eqb key "ArrowUp" then
    SetSelectedIndex (Z.rem (selectedIndex - 1 + Z.of_nat (List.length filtered))
                            (Z.of_nat (List.length filtered)))
  else if String.eqb key "Enter" || String.eqb key "Tab" then
    OnSelect (itemAt filtered selectedIndex)
  else if String.eqb key "Escape" then OnClose
  else Unhandled.

Section Dropdown.
(** [String.prototype.toLowerCase], left open: what follows holds for any
    function in its place. *)
Variable toLowerCase : string -> string.

(** The predicate of [contacts.filter] (lines 17-19). *)
Definition matchesQuery (query : string) (c : Contact.t) : bool :=
  includes (toLowerCase (Contact.name c)) (toLowerCase query)
  || includes (toLowerCase (Contact.email c)) (toLowerCase query).

(** [filtered] (lines 17-20). *)
Definition filtered (contacts : list Contact.t) (query : string) : list Contact.t :=
  firstn 5 (filter (matchesQuery query) contacts).

(** Line 55: the dropdown renders unless it is idle with nothing to show. *)
Definition rendersList (contacts : list Contact.t) (query : string) (isLoading : bool)
  : bool :=
  negb (negb isLoading && (List.length (filtered contacts query) =? 0)%nat).

End Dropdown.

(** ** Mention detection (MentionList.tsx, lines 355-360) *)

(** Characters are code units below 256. [\w] is [A-Za-z0-9_]. *)
Definition isWordChar (c : ascii) : bool :=
  let n := nat_of_ascii c in
  ((48 <=? n) && (n <=? 57) || (65 <=? n) && (n <=? 90)
   || (97 <=? n) && (n <=? 122) || (n =? 95))%nat.

(** [\s] below 256: tab, line feed, vertical tab, form feed, carriage
    return, space, no-break space. *)
Definition isSpaceChar (c : ascii) : bool :=
  let n := nat_of_ascii c in
  ((9 <=? n) && (n <=? 13) || (n =? 32) || (n =? 160))%nat.

Fixpoint allWord (s : string) : bool :=
  match s with
  | EmptyString => true
  | String c s' => isWordChar c && allWord s'
  end.

(** The pattern of line 356 after its look-behind (an at sign, a greedy run
    of word characters, the end of the text) tried at the head of [s]: the
    group it captures, which is the whole rest and must consist of word
    characters. *)
Definition atWordsToEnd (s : string) : option string :=
  match s with
  | String c rest => if Ascii.eqb c "@" && allWord rest then Some rest else None
  | EmptyString => None
  end.

(** The search for the pattern from position [index] on, left to right;
    [behind] tells whether its look-behind holds at this position (start of
    the text, or a white-space character just before). *)
Fixpoint scanMention (behind : bool) (index : nat) (s : string) : option (nat * string) :=
  match (if behind then atWordsToEnd s else None) with
  | Some query => Some (index, query)
  | None =>
      match s with
      | EmptyString => None
      | String c s' => scanMention (isSpaceChar c) (S index) s'
      end
  end.

(** [textBeforeCursor.match] on the pattern (line 356): the index of the
    match and its group. *)
Definition mentionMatch (textBeforeCursor : string) : option (nat * string) :=
  scanMention true 0 textBeforeCursor.

(** [s.slice(0, n)] and [s.slice(n)] for an index that is not negative. *)
Fixpoint sliceTo (n : nat) (s : string) : string :=
  match n, s with
  | S n', String c s' => String c (sliceTo n' s')
  | _, _ => EmptyString
  end.

Fixpoint sliceFrom (n : nat) (s : string) : string :=
  match n, s with
  | S n', String _ s' => sliceFrom n' s'
  | _, _ => s
  end.

(** The last character of a string. *)
Fixpoint lastChar (s : string) : option ascii :=
  match s with
  | EmptyString => None
  | String c s' => match lastChar s' with Some x => Some x | None => Some c end
  end.

(** ** [handleInput] and [handleSelectContact] (lines 345-419) *)

(** [mentionState] (lines 192-198). *)
Record MentionState : Type := mkMention {
  active : bool;
  query : string;
  start : nat;
  top : Z;
  left : Z
}.

(** What [handleInput] leaves behind: the mention state, the loading flag,
    and the query of the search it has put on the timer, if any. The timer
    set before is cleared on entry (line 351). *)
Record InputState : Type := mkInput {
  mentionState : MentionState;
  isSearching : bool;
  scheduled : option string
}.

(** [handleInput] (lines 345-399), given what [getCaretCoordinates] answers
    for a position. *)
Definition handleInput (caret : nat -> Z * Z) (prev : InputState)
                       (newVal : string) (newPos : nat) : InputState :=
  let textBeforeCursor := sliceTo newPos newVal in
  match mentionMatch textBeforeCursor with
  | Some (start, query) =>
      let coords := caret (start + 1)%nat in
      {| mentionState := {| active := true; query := query; start := start;
                            top := (fst coords - 220)%Z; left := snd coords |};
         isSearching := if (2 <=? String.length query)%nat then true
                        else isSearching prev;
         scheduled := if (2 <=? String.length query)%nat then Some query else None |}
  | None =>
      {| mentionState := {| active := false;
                            query := query (mentionState prev);
                            start := start (mentionState prev);
                            top := top (mentionState prev);
                            left := left (mentionState prev) |};
         isSearching := false;
         scheduled := None |}
  end.

(** [handleSelectContact] (lines 401-419): the new text and the new cursor
    position. [selectionStart] is absent when the textarea is not mounted;
    absent or 0, the end of the text stands in for it. *)
Definition handleSelectContact (textInput : string) (mentionStart : nat)
                               (selectionStart : option nat) (contact : Contact.t)
  : string * nat :=
  let before := sliceTo (mentionStart + 1) textInput in
  let after :=
    sliceFrom (match selectionStart with
               | Some (S n) => S n
               | _ => String.length textInput
               end) textInput in
  let insert := (Contact.name contact ++ " <" ++ Contact.email contact ++ "> ")%string in
  ((before ++ insert ++ after)%string,
   (String.length before + String.length insert)%nat).

(** ** The plan [handleGenerate] builds (MentionList.tsx, lines 281-316) *)

(** An entry of [result.events] as the model is asked to write it. *)
Module RawEvent.
Record t : Type := mk {
  title : option string;
  start : option string;
  end_ : option string;
  location : option string;
  description : option string;
  attendees : option (list string)
}.
End RawEvent.

(** The object built for [createEvent] (lines 294-307). *)
Module CalendarEvent.
Record Attendee : Type := mkAttendee { email : string }.
Record Time : Type := mkTime { dateTime : string; timeZone : string }.
Record t : Type := mk {
  summary : string;
  description : option string;
  location : option string;
  attendees : option (list Attendee);
  start : Time;
  end_ : Time
}.
End CalendarEvent.









(** ** Facts about [JsMap] *)

Section JsMapFacts.
Context {V : Type}.
Implicit Types (m : JsMap.t V) (k : string) (v : V).

Lemma get_set m k v k' :
  JsMap.get (JsMap.set m k v) k' =
  if String.eqb k k' then Some v else JsMap.get m k'.
Proof.
  induction m as [|[k0 v0] m IH]; simpl.
  - reflexivity.
  - destruct (String.eqb k0 k) eqn:E0; simpl.
    + apply String.eqb_eq in E0; subst k0.
      destruct (String.eqb k k'); reflexivity.
    + destruct (String.eqb k0 k') eqn:E1.
      * apply String.eqb_eq in E1; subst k0.
        rewrite String.eqb_sym, E0. reflexivity.
      * exact IH.
Qed.

Lemma keys_set m k v :
  JsMap.keys (JsMap.set m k v) =
  if JsMap.has m k then JsMap.keys m else JsMap.keys m ++ [k].
Proof.
  unfold JsMap.has, JsMap.keys.
  induction m as [|[k0 v0] m IH]; simpl.
  - reflexivity.
  - destruct (String.eqb k0 k) eqn:E0; simpl.
    + reflexivity.
    + rewrite IH. destruct (JsMap.get m k); reflexivity.
Qed.

Lemma has_false_not_in m k :
  JsMap.has m k = false -> ~ In k (JsMap.keys m).
Proof.
  unfold JsMap.has, JsMap.keys.
  induction m as [|[k0 v0] m IH]; simpl.
  - intros _ [].
  - destruct (String.eqb k0 k) eqn:E0.
    + discriminate.
    + intros H [->|Hin].
      * rewrite String.eqb_refl in E0. discriminate.
      * exact (IH H Hin).
Qed.

Lemma NoDup_keys_set m k v :
  NoDup (JsMap.keys m) -> NoDup (JsMap.keys (JsMap.set m k v)).
Proof.
  intros Hnd. rewrite keys_set.
  destruct (JsMap.has m k) eqn:Hh.
  - exact Hnd.
  - apply NoDup_app.
    + exact Hnd.
    + constructor; [intros [] | constructor].
    + intros x Hx [<-|[]]. exact (has_false_not_in _ _ Hh Hx).
Qed.
End JsMapFacts.

(** ** Facts about the merge *)

Lemma find_app {A : Type} (f : A -> bool) (l1 l2 : list A) :
  find f (l1 ++ l2) =
  match find f l1 with Some x => Some x | None => find f l2 end.
Proof.
  induction l1 as [|a l1 IH]; simpl; [reflexivity|].
  destruct (f a); [reflexivity | exact IH].
Qed.

Lemma lastEntry_cons e c l :
  lastEntry e (c :: l) =
  match lastEntry e l with
  | Some x => Some x
  | None => if String.eqb (Contact.email c) e then Some c else None
  end.
Proof.
  unfold lastEntry, entry. simpl. rewrite find_app. reflexivity.
Qed.

Lemma Keyed_set m c : Keyed m -> Keyed (JsMap.set m (Contact.email c) c).
Proof.
  unfold Keyed. induction 1 as [|[k v] m Hkv Hm IH]; simpl.
  - repeat constructor.
  - destruct (String.eqb k (Contact.email c)) eqn:E.
    + apply String.eqb_eq in E. constructor; [symmetry; exact E | exact Hm].
    + constructor; [exact Hkv | exact IH].
Qed.

Lemma Keyed_emails m : Keyed m -> map Contact.email (JsMap.values m) = JsMap.keys m.
Proof.
  unfold JsMap.values, JsMap.keys.
  induction 1 as [|[k v] m Hkv _ IH]; simpl in *; congruence.
Qed.

Lemma Keyed_entry m e : Keyed m -> entry e (JsMap.values m) = JsMap.get m e.
Proof.
  unfold entry, JsMap.values.
  induction 1 as [|[k v] m Hkv _ IH]; simpl in *; [reflexivity|].
  rewrite Hkv, IH. reflexivity.
Qed.

Lemma Sound_empty : Sound JsMap.empty.
Proof. split; constructor. Qed.

Lemma Sound_set m c : Sound m -> Sound (JsMap.set m (Contact.email c) c).
Proof.
  intros [Hk Hn]. split; [apply Keyed_set | apply NoDup_keys_set]; assumption.
Qed.

Lemma Sound_recordAll l : forall m, Sound m -> Sound (recordAll m l).
Proof.
  unfold recordAll. induction l as [|c l IH]; simpl; intros m Hm.
  - exact Hm.
  - apply IH, Sound_set, Hm.
Qed.

Lemma Sound_recordMissing l : forall m, Sound m -> Sound (recordMissing m l).
Proof.
  unfold recordMissing. induction l as [|c l IH]; simpl; intros m Hm.
  - exact Hm.
  - apply IH. destruct (JsMap.has m (Contact.email c)); simpl.
    + exact Hm.
    + apply Sound_set, Hm.
Qed.

Lemma get_recordAll l : forall m e,
  JsMap.get (recordAll m l) e =
  match lastEntry e l with Some c => Some c | None => JsMap.get m e end.
Proof.
  unfold recordAll. induction l as [|c l IH]; simpl; intros m e.
  - reflexivity.
  - rewrite IH, lastEntry_cons, get_set.
    destruct (lastEntry e l); [reflexivity|].
    destruct (String.eqb (Contact.email c) e); reflexivity.
Qed.

Lemma get_recordMissing l : forall m e,
  JsMap.get (recordMissing m l) e =
  match JsMap.get m e with Some c => Some c | None => entry e l end.
Proof.
  unfold recordMissing, entry. induction l as [|c l IH]; simpl; intros m e.
  - destruct (JsMap.get m e); reflexivity.
  - rewrite IH. unfold JsMap.has.
    destruct (JsMap.get m (Contact.email c)) eqn:Hc; simpl.
    + destruct (JsMap.get m e) eqn:He; [reflexivity|].
      destruct (String.eqb (Contact.email c) e) eqn:E; [|reflexivity].
      apply String.eqb_eq in E. congruence.
    + rewrite get_set.
      destruct (String.eqb (Contact.email c) e) eqn:E.
      * apply String.eqb_eq in E. subst e. rewrite Hc. reflexivity.
      * reflexivity.
Qed.

Lemma Sound_merge s1 s2 s3 :
  Sound (recordMissing (recordMissing (recordAll JsMap.empty s1) s2) s3).
Proof.
  apply Sound_recordMissing, Sound_recordMissing, Sound_recordAll, Sound_empty.
Qed.

Lemma entry_Some e l c : entry e l = Some c -> In c l /\ Contact.email c = e.
Proof.
  unfold entry. intros H. apply find_some in H. destruct H as [Hin He].
  apply String.eqb_eq in He. split; assumption.
Qed.

Lemma entry_None e l : entry e l = None -> forall c, In c l -> Contact.email c <> e.
Proof.
  unfold entry. intros H c Hin He.
  pose proof (find_none _ _ H c Hin) as Hf. simpl in Hf.
  subst e. rewrite String.eqb_refl in Hf. discriminate.
Qed.

Lemma entry_unique l :
  NoDup (map Contact.email l) ->
  forall c, In c l -> entry (Contact.email c) l = Some c.
Proof.
  unfold entry. induction l as [|a l IH]; simpl; intros Hnd c Hin.
  - contradiction.
  - inversion Hnd as [|? ? Hnotin Hnd']; subst.
    destruct Hin as [->|Hin].
    + rewrite String.eqb_refl. reflexivity.
    + destruct (String.eqb (Contact.email a) (Contact.email c)) eqn:E.
      * apply String.eqb_eq in E. exfalso. apply Hnotin. rewrite E.
        apply in_map. exact Hin.
      * apply IH; assumption.
Qed.

Lemma lastEntry_In e l c : lastEntry e l = Some c -> In c l /\ Contact.email c = e.
Proof.
  unfold lastEntry. intros H. apply entry_Some in H. destruct H as [Hin He].
  split; [apply in_rev; exact Hin | exact He].
Qed.

Lemma lastEntry_found e l c :
  In c l -> Contact.email c = e -> exists c', lastEntry e l = Some c'.
Proof.
  intros Hin He. destruct (lastEntry e l) as [c'|] eqn:H.
  - exists c'. reflexivity.
  - exfalso. unfold lastEntry in H.
    apply (entry_None _ _ H c); [apply in_rev in Hin; exact Hin | exact He].
Qed.

Lemma merge_entry s1 s2 s3 e :
  entry e (mergeContacts s1 s2 s3) =
  match lastEntry e s1 with
  | Some c => Some c
  | None => match entry e s2 with
            | Some c => Some c
            | None => entry e s3
            end
  end.
Proof.
  unfold mergeContacts.
  rewrite Keyed_entry by apply Sound_merge.
  rewrite !get_recordMissing, get_recordAll. simpl.
  destruct (lastEntry e s1); [reflexivity|].
  destruct (entry e s2); reflexivity.
Qed.

Lemma merge_NoDup s1 s2 s3 :
  NoDup (map Contact.email (mergeContacts s1 s2 s3)).
Proof.
  unfold mergeContacts.
  destruct (Sound_merge s1 s2 s3) as [Hk Hn].
  rewrite Keyed_emails by exact Hk. exact Hn.
Qed.

(** ** Priority and uniqueness of the merged list *)

(** C1. In the list [fetchAllContacts] merges, the entry for an email is the
    one of the highest-priority source that has it: source 1 is recorded
    unconditionally (its last contact for the email stands), source 2 only
    fills emails source 1 left free (its first contact for the email), source
    3 only those still free. Each member of the merged list is the entry of
    its email. In particular, when source 1 and source 2 both hold a contact
    for an email, the merged entry comes from source 1, and it is source 1's
    contact when source 1 has one contact for that email; source 2's contact
    with another name is then not in the merged list. *)
Theorem merge_first_writer_wins (s1 s2 s3 : list Contact.t) :
  (forall e,
      entry e (mergeContacts s1 s2 s3) =
      match lastEntry e s1 with
      | Some c => Some c
      | None => match entry e s2 with
                | Some c => Some c
                | None => entry e s3
                end
      end)
  /\ (forall c, In c (mergeContacts s1 s2 s3) ->
                entry (Contact.email c) (mergeContacts s1 s2 s3) = Some c)
  /\ (forall c1 c2,
         In c1 s1 -> In c2 s2 -> Contact.email c1 = Contact.email c2 ->
         (exists c, entry (Contact.email c1) (mergeContacts s1 s2 s3) = Some c /\ In c s1)
         /\ ((forall c, In c s1 -> Contact.email c = Contact.email c1 -> c = c1) ->
             entry (Contact.email c1) (mergeContacts s1 s2 s3) = Some c1
             /\ (Contact.name c1 <> Contact.name c2 ->
                 ~ In c2 (mergeContacts s1 s2 s3)))).
Proof.
  split; [intros e; apply merge_entry|].
  split; [apply entry_unique, merge_NoDup|].
  intros c1 c2 H1 H2 He.
  destruct (lastEntry_found (Contact.email c1) s1 c1 H1 eq_refl) as [c Hc].
  assert (Hm : entry (Contact.email c1) (mergeContacts s1 s2 s3) = Some c)
    by (rewrite merge_entry, Hc; reflexivity).
  destruct (lastEntry_In _ _ _ Hc) as [Hin Hce].
  split; [exists c; split; assumption|].
  intros Huniq. rewrite (Huniq c Hin Hce) in Hm.
  split; [exact Hm|].
  intros Hname Hin2.
  pose proof (entry_unique _ (merge_NoDup s1 s2 s3) c2 Hin2) as H.
  rewrite <- He, Hm in H. injection H as ->. apply Hname. reflexivity.
Qed.

Lemma merge_first_writer_wins_witness :
  entry "a@x.com" (mergeContacts [ann] [annie; bob] [bob]) = Some ann
  /\ ~ In annie (mergeContacts [ann] [annie; bob] [bob]).
Proof.
  destruct (proj2 (proj2 (merge_first_writer_wins [ann] [annie; bob] [bob])) ann annie)
    as [_ H].
  - simpl. left. reflexivity.
  - simpl. left. reflexivity.
  - reflexivity.
  - destruct H as [Hentry Hout].
    + intros c [<-|[]] _. reflexivity.
    + split; [exact Hentry | apply Hout; simpl; discriminate].
Defined.

(** C2. No two entries of a list [fetchAllContacts] merges share an email,
    whatever the three source lists are. *)
Theorem merge_email_unique (s1 s2 s3 : list Contact.t) :
  NoDup (map Contact.email (mergeContacts s1 s2 s3)).
Proof.
  apply merge_NoDup.
Qed.

(** ** The caller's merge is additive *)

Lemma known_app l1 l2 e : known (l1 ++ l2) e = known l1 e || known l2 e.
Proof. unfold known. apply existsb_app. Qed.

Lemma known_single r e : known [r] e = String.eqb (Contact.email r) e.
Proof. unfold known. simpl. apply orb_false_r. Qed.

Lemma combined_from results : forall prev held earlier,
  (forall e, known held e = known prev e || known earlier e) ->
  fold_left
    (fun combined r =>
       if negb (existsb (fun c => String.eqb (Contact.email c) (Contact.email r)) combined)
       then combined ++ [r]
       else combined)
    results held
  = held ++ newcomers prev earlier results.
Proof.
  induction results as [|r rs IH]; simpl; intros prev held earlier Hinv.
  - symmetry. apply app_nil_r.
  - change (existsb (fun c => String.eqb (Contact.email c) (Contact.email r)) held)
      with (known held (Contact.email r)).
    rewrite <- negb_orb, <- Hinv.
    destruct (known held (Contact.email r)) eqn:Hheld; simpl.
    + apply IH. intros e. rewrite known_app, known_single, Hinv.
      destruct (String.eqb (Contact.email r) e) eqn:E.
      * apply String.eqb_eq in E. subst e. rewrite <- Hinv, Hheld.
        rewrite orb_true_r. destruct (known prev (Contact.email r)); reflexivity.
      * rewrite orb_false_r. reflexivity.
    + rewrite (IH prev (held ++ [r]) (earlier ++ [r])).
      * rewrite <- app_assoc. reflexivity.
      * intros e. rewrite !known_app, Hinv. apply eq_sym, orb_assoc.
Qed.

Lemma combined_newcomers prev results :
  combined prev results = prev ++ newcomers prev [] results.
Proof.
  unfold combined. apply combined_from.
  intros e. simpl. symmetry. apply orb_false_r.
Qed.

Lemma newcomers_distinct prev results : forall earlier,
  (forall r, In r results -> known earlier (Contact.email r) = false) ->
  NoDup (map Contact.email results) ->
  newcomers prev earlier results =
  filter (fun r => negb (known prev (Contact.email r))) results.
Proof.
  induction results as [|r rs IH]; simpl; intros earlier Hfresh Hnd.
  - reflexivity.
  - inversion Hnd as [|? ? Hnotin Hnd']; subst.
    rewrite (Hfresh r (or_introl eq_refl)). simpl. rewrite andb_true_r.
    assert (Hrec : newcomers prev (earlier ++ [r]) rs =
                   filter (fun r0 => negb (known prev (Contact.email r0))) rs).
    { apply IH; [|exact Hnd'].
      intros x Hx. rewrite known_app, known_single.
      rewrite (Hfresh x (or_intror Hx)). simpl.
      apply String.eqb_neq. intros E. apply Hnotin. rewrite E.
      apply in_map. exact Hx. }
    rewrite Hrec. reflexivity.
Qed.

Lemma afterSearch_combined prev results :
  afterSearch prev results = combined prev results.
Proof.
  unfold afterSearch. destruct results; reflexivity.
Qed.

(** C9, as amended. The list held after a search starts with the prior
    entries, unchanged and in their order, and goes on with the results, in
    their order, whose email neither the prior list nor an earlier result of
    the same batch holds. When the results carry pairwise distinct emails,
    these are the results whose email the prior list does not hold. *)
Theorem search_merge_additive (prev results : list Contact.t) :
  afterSearch prev results = prev ++ newcomers prev [] results
  /\ (NoDup (map Contact.email results) ->
      afterSearch prev results = appendUnknown prev results).
Proof.
  rewrite afterSearch_combined, combined_newcomers. split; [reflexivity|].
  intros Hnd. unfold appendUnknown. f_equal.
  apply newcomers_distinct; [intros r _; reflexivity | exact Hnd].
Qed.

Lemma search_merge_additive_witness :
  afterSearch [ann] [annie; bob] = [ann; bob].
Proof.
  rewrite (proj2 (search_merge_additive [ann] [annie; bob])).
  - reflexivity.
  - simpl. repeat constructor; simpl; intuition discriminate.
Defined.

(** C9 as stated fails on a batch that repeats an email: of two results
    with the same email, new to the prior list, the first is appended and
    the second is not, though the prior list holds neither. *)
Lemma search_merge_batch_duplicate :
  afterSearch [] [ann; annie] = [ann]
  /\ afterSearch [] [ann; annie] <> appendUnknown [] [ann; annie].
Proof.
  split; [reflexivity | discriminate].
Qed.

(** ** The recent-attendees source *)

Lemma In_filterNotNull {A : Type} (a : A) (l : list (option A)) :
  In a (filterNotNull l) <-> In (Some a) l.
Proof.
  induction l as [|[x|] l IH]; simpl.
  - tauto.
  - rewrite IH. split; intros [H|H]; auto; left; congruence.
  - rewrite IH. split; [auto | intros [H|H]; [discriminate | exact H]].
Qed.

Lemma recordAttendee_step m att :
  recordAttendee m att =
  match attendeeToContact att with
  | Some c => if negb (JsMap.has m (Contact.email c))
              then JsMap.set m (Contact.email c) c
              else m
  | None => m
  end.
Proof.
  unfold recordAttendee, attendeeToContact, eligible.
  destruct (Attendee.email att) as [e|]; [|reflexivity].
  destruct (truthy (Some e) && negb (flagged (Attendee.self att))
            && negb (flagged (Attendee.resource att))); reflexivity.
Qed.

Lemma fold_recordAttendee l : forall m,
  fold_left recordAttendee l m =
  recordMissing m (filterNotNull (map attendeeToContact l)).
Proof.
  unfold recordMissing. induction l as [|att l IH]; simpl; intros m.
  - reflexivity.
  - rewrite IH, recordAttendee_step.
    destruct (attendeeToContact att); reflexivity.
Qed.

Lemma fold_recordEvent items : forall m,
  fold_left recordEvent items m = fold_left recordAttendee (allAttendees items) m.
Proof.
  induction items as [|event items IH]; simpl; intros m.
  - reflexivity.
  - rewrite fold_left_app, IH. unfold recordEvent.
    destruct (CalEvent.attendees event); reflexivity.
Qed.

Lemma attendeeContacts_missing items :
  attendeeContacts items =
  JsMap.values
    (recordMissing JsMap.empty (filterNotNull (map attendeeToContact (allAttendees items)))).
Proof.
  unfold attendeeContacts. rewrite fold_recordEvent, fold_recordAttendee. reflexivity.
Qed.

Lemma attendeeContacts_NoDup items :
  NoDup (map Contact.email (attendeeContacts items)).
Proof.
  rewrite attendeeContacts_missing.
  destruct (Sound_recordMissing
              (filterNotNull (map attendeeToContact (allAttendees items)))
              JsMap.empty Sound_empty) as [Hk Hn].
  rewrite Keyed_emails by exact Hk. exact Hn.
Qed.

Lemma attendeeContacts_entry items e :
  entry e (attendeeContacts items) =
  entry e (filterNotNull (map attendeeToContact (allAttendees items))).
Proof.
  rewrite attendeeContacts_missing.
  rewrite Keyed_entry by (apply Sound_recordMissing, Sound_empty).
  rewrite get_recordMissing. reflexivity.
Qed.

Lemma In_allAttendees att items :
  In att (allAttendees items) <->
  exists event l, In event items /\ CalEvent.attendees event = Some l /\ In att l.
Proof.
  unfold allAttendees. rewrite in_flat_map. split.
  - intros [event [Hev Hin]].
    destruct (CalEvent.attendees event) as [l|] eqn:E; [|contradiction].
    exists event, l. auto.
  - intros [event [l [Hev [E Hin]]]]. exists event. rewrite E. auto.
Qed.

Lemma attendeeToContact_Some att c :
  attendeeToContact att = Some c ->
  Attendee.email att = Some (Contact.email c)
  /\ Contact.email c <> ""
  /\ Attendee.self att <> Some true
  /\ Attendee.resource att <> Some true
  /\ Contact.id c = Contact.email c
  /\ Contact.name c = orDefault (Attendee.displayName att) (beforeAt (Contact.email c))
  /\ Contact.photoUrl c = None.
Proof.
  unfold attendeeToContact, eligible.
  destruct (Attendee.email att) as [e|]; [|discriminate]. simpl.
  destruct (String.eqb e "") eqn:Ee; simpl; [discriminate|].
  destruct (Attendee.self att) as [[|]|]; simpl; try discriminate;
    destruct (Attendee.resource att) as [[|]|]; simpl; try discriminate;
    intros H; injection H as <-; simpl;
    apply String.eqb_neq in Ee; repeat split; congruence.
Qed.

Lemma attendeeToContact_eligible att e :
  Attendee.email att = Some e -> e <> "" ->
  Attendee.self att <> Some true -> Attendee.resource att <> Some true ->
  exists c, attendeeToContact att = Some c /\ Contact.email c = e.
Proof.
  intros He Hne Hs Hr. unfold attendeeToContact, eligible. rewrite He. simpl.
  apply String.eqb_neq in Hne. rewrite Hne. simpl.
  destruct (Attendee.self att) as [[|]|]; try congruence;
    destruct (Attendee.resource att) as [[|]|]; try congruence;
    simpl; eexists; split; reflexivity.
Qed.

(** C7. An attendee marked [self] or [resource], or without an email, leaves
    the contact map as it is, whatever its email; every contact of the
    recent-attendees list stems from an attendee of some item that has an
    email and neither flag; and every such attendee's email has a contact
    in the list. *)
Theorem recent_attendees_exclusion (items : list CalEvent.t) :
  (forall contactsMap att,
      Attendee.self att = Some true \/ Attendee.resource att = Some true
      \/ Attendee.email att = None \/ Attendee.email att = Some "" ->
      recordAttendee contactsMap att = contactsMap)
  /\ (forall c, In c (attendeeContacts items) ->
        exists event attendees att,
          In event items /\ CalEvent.attendees event = Some attendees
          /\ In att attendees
          /\ Attendee.email att = Some (Contact.email c)
          /\ Contact.email c <> ""
          /\ Attendee.self att <> Some true
          /\ Attendee.resource att <> Some true)
  /\ (forall event attendees att e,
        In event items -> CalEvent.attendees event = Some attendees ->
        In att attendees ->
        Attendee.email att = Some e -> e <> "" ->
        Attendee.self att <> Some true -> Attendee.resource att <> Some true ->
        exists c, In c (attendeeContacts items) /\ Contact.email c = e).
Proof.
  split; [|split].
  - intros m att H. rewrite recordAttendee_step.
    destruct (attendeeToContact att) as [c|] eqn:Hc; [|reflexivity].
    apply attendeeToContact_Some in Hc.
    destruct Hc as (He & Hne & Hs & Hr & _).
    destruct H as [H|[H|[H|H]]]; congruence.
  - intros c Hin.
    pose proof (entry_unique _ (attendeeContacts_NoDup items) c Hin) as He.
    rewrite attendeeContacts_entry in He.
    apply entry_Some in He. destruct He as [Hc _].
    apply In_filterNotNull, in_map_iff in Hc. destruct Hc as [att [Hatt Hall]].
    apply In_allAttendees in Hall. destruct Hall as (event & l & Hev & Hl & Hin').
    apply attendeeToContact_Some in Hatt.
    destruct Hatt as (He & Hne & Hs & Hr & _).
    exists event, l, att. repeat split; assumption.
  - intros event l att e Hev Hl Hin He Hne Hs Hr.
    destruct (attendeeToContact_eligible att e He Hne Hs Hr) as [c0 [Hc0 He0]].
    assert (Hc : In c0 (filterNotNull (map attendeeToContact (allAttendees items)))).
    { apply In_filterNotNull. rewrite <- Hc0. apply in_map.
      apply In_allAttendees. exists event, l. auto. }
    destruct (entry e (attendeeContacts items)) as [c|] eqn:Hentry.
    + exists c. apply entry_Some in Hentry. exact Hentry.
    + exfalso. rewrite attendeeContacts_entry in Hentry.
      exact (entry_None _ _ Hentry c0 Hc He0).
Qed.

Example attendeeContacts_meeting : attendeeContacts [meeting; meeting] = [bob].
Proof. reflexivity. Qed.

Lemma recent_attendees_exclusion_witness :
  (exists c, In c (attendeeContacts [meeting]) /\ Contact.email c = "bob@x.com")
  /\ recordAttendee [("bob@x.com", bob)]
       {| Attendee.email := Some "me@x.com"; Attendee.displayName := Some "Me";
          Attendee.self := Some true; Attendee.resource := None |}
     = [("bob@x.com", bob)].
Proof.
  destruct (recent_attendees_exclusion [meeting]) as (Hskip & _ & Hkept).
  split.
  - eapply (Hkept meeting _
             {| Attendee.email := Some "bob@x.com"; Attendee.displayName := None;
                Attendee.self := Some false; Attendee.resource := None |}
             "bob@x.com").
    + simpl. left. reflexivity.
    + reflexivity.
    + simpl. do 3 right. left. reflexivity.
    + reflexivity.
    + discriminate.
    + discriminate.
    + discriminate.
  - apply Hskip. left. reflexivity.
Defined.

(** ** Runs of composed programs *)

Lemma after_nil {A W : Type} (r : Run A W) : after [] r = r.
Proof. destruct r. reflexivity. Qed.

Lemma after_after {A W : Type} (e1 e2 : list Event) (r : Run A W) :
  after e1 (after e2 r) = after (e1 ++ e2) r.
Proof. unfold after. simpl. rewrite app_assoc. reflexivity. Qed.

Section RunFacts.
Context {W : Type} (handle : Handler W).

Lemma run_Vis {A R : Type} (c : Call R) (k : R -> Prog A) (w w' : W) (r : R) :
  handle R c w = (r, w') ->
  run handle (Vis c k) w = after [Called c] (run handle (k r) w').
Proof. intros H. simpl. rewrite H. reflexivity. Qed.

Lemma run_bind {A B : Type} (p : Prog A) (f : A -> Prog B) : forall w,
  run handle (bind p f) w =
  andThen (run handle p w) (fun a w' => run handle (f a) w').
Proof.
  induction p as [a|e|R c k IH]; intros w; simpl.
  - unfold andThen. simpl. symmetry. apply after_nil.
  - reflexivity.
  - destruct (handle R c w) as [r w']. rewrite IH. unfold andThen. simpl.
    destruct (settled (run handle (k r) w')); reflexivity.
Qed.

Lemma run_tryCatch {A : Type} (p : Prog A) (h : Error -> Prog A) : forall w,
  run handle (tryCatch p h) w =
  orCatch (run handle p w) (fun e w' => run handle (h e) w').
Proof.
  induction p as [a|e|R c k IH]; intros w; simpl.
  - reflexivity.
  - unfold orCatch. simpl. symmetry. apply after_nil.
  - destruct (handle R c w) as [r w']. rewrite IH. unfold orCatch.
    destruct (run handle (k r) w') as [[a|e] w'' t]; reflexivity.
Qed.

Lemma NoThrow_run {A : Type} (p : Prog A) :
  NoThrow p -> forall w, exists a, settled (run handle p w) = Resolved a.
Proof.
  induction 1 as [a|R c k _ IH]; intros w; simpl.
  - exists a. reflexivity.
  - destruct (handle R c w) as [r w']. simpl. apply IH.
Qed.

End RunFacts.

Lemma NoThrow_bind {A B : Type} (p : Prog A) (f : A -> Prog B) :
  NoThrow p -> (forall a, NoThrow (f a)) -> NoThrow (bind p f).
Proof.
  intros Hp Hf. induction Hp as [a|R c k _ IH]; simpl.
  - apply Hf.
  - constructor. exact IH.
Qed.

Lemma NoThrow_tryCatch {A : Type} (p : Prog A) (h : Error -> Prog A) :
  (forall e, NoThrow (h e)) -> NoThrow (tryCatch p h).
Proof.
  intros Hh. induction p as [a|e|R c k IH]; simpl.
  - constructor.
  - apply Hh.
  - constructor. exact IH.
Qed.

(** ** Runs of the three sources *)

Section Sources.
Context {W : Type} (handle : Handler W).

Lemma run_fetchPeople url token isOther w o w' :
  handle _ (Fetch url token) w = (o, w') ->
  run handle (fetchPeople url token isOther) w =
  mkRun (Resolved (peopleOf isOther o)) w' [Called (Fetch url token)].
Proof.
  intros H. unfold fetchPeople, await. simpl. rewrite H.
  destruct o as [res|e]; simpl; [|reflexivity].
  destruct (ok res); simpl; [|reflexivity].
  destruct (json res) as [data|e]; simpl; [|reflexivity].
  destruct isOther;
    [destruct (Body.otherContacts data) | destruct (Body.connections data)];
    reflexivity.
Qed.

Lemma run_fetchRecentAttendees token w now w1 o w2 :
  handle _ DateNow w = (now, w1) ->
  handle _ (Fetch (CalendarEvents (now - thirtyDays)) token) w1 = (o, w2) ->
  run handle (fetchRecentAttendees token) w =
  mkRun (Resolved (attendeesOf o)) w2
        [Called DateNow; Called (Fetch (CalendarEvents (now - thirtyDays)) token)].
Proof.
  intros Hnow H. unfold fetchRecentAttendees, await, call.
  rewrite run_tryCatch. cbn [bind]. rewrite (run_Vis _ _ _ _ _ _ Hnow).
  change (now - 30 * 24 * 60 * 60 * 1000)%Z with (now - thirtyDays)%Z.
  cbn beta. rewrite (run_Vis _ _ _ _ _ _ H). unfold orCatch, after.
  destruct o as [res|e]; simpl; [|reflexivity].
  destruct (ok res); simpl; [|reflexivity].
  destruct (json res) as [data|e]; simpl; [|reflexivity].
  destruct (Body.items data); reflexivity.
Qed.

Lemma run_fetchAllContacts token w0 o1 w1 o2 w2 now w3 o3 w4 :
  handle _ (Fetch Connections token) w0 = (o1, w1) ->
  handle _ (Fetch OtherContacts token) w1 = (o2, w2) ->
  handle _ DateNow w2 = (now, w3) ->
  handle _ (Fetch (CalendarEvents (now - thirtyDays)) token) w3 = (o3, w4) ->
  run handle (fetchAllContacts token) w0 =
  mkRun (Resolved (mergeContacts (peopleOf false o1) (peopleOf true o2) (attendeesOf o3)))
        w4
        [Called (Fetch Connections token); Called (Fetch OtherContacts token);
         Called DateNow; Called (Fetch (CalendarEvents (now - thirtyDays)) token)].
Proof.
  intros H1 H2 Hnow H3. unfold fetchAllContacts, fetchConnections, fetchOtherContacts.
  rewrite run_bind, (run_fetchPeople _ _ _ _ _ _ H1).
  unfold andThen; cbn [settled final trace].
  rewrite run_bind, (run_fetchPeople _ _ _ _ _ _ H2).
  unfold andThen; cbn [settled final trace].
  rewrite run_bind, (run_fetchRecentAttendees _ _ _ _ _ _ Hnow H3).
  reflexivity.
Qed.

End Sources.

Lemma Failed_peopleOf_connections o :
  Failed Body.connections o -> peopleOf false o = [].
Proof.
  destruct o as [res|e]; simpl; [|reflexivity].
  intros [H|[[e H]|[data [H Hf]]]]; rewrite H; [reflexivity| |].
  - destruct (ok res); reflexivity.
  - rewrite Hf. destruct (ok res); reflexivity.
Qed.

Lemma Failed_peopleOf_otherContacts o :
  Failed Body.otherContacts o -> peopleOf true o = [].
Proof.
  destruct o as [res|e]; simpl; [|reflexivity].
  intros [H|[[e H]|[data [H Hf]]]]; rewrite H; [reflexivity| |].
  - destruct (ok res); reflexivity.
  - rewrite Hf. destruct (ok res); reflexivity.
Qed.

Lemma Failed_attendeesOf o :
  Failed Body.items o -> attendeesOf o = [].
Proof.
  destruct o as [res|e]; simpl; [|reflexivity].
  intros [H|[[e H]|[data [H Hf]]]]; rewrite H; [reflexivity| |].
  - destruct (ok res); reflexivity.
  - rewrite Hf. destruct (ok res); reflexivity.
Qed.

(** ** [getContacts] and [searchContacts] against any outside *)

Section Aggregator.
Context {W : Type} (handle : Handler W).

(** The refresh when the credential arrives and the cache write succeeds. *)
Lemma run_refreshContacts token w w0 o1 w1 o2 w2 now w3 o3 w4 stamp w5 w6 :
  handle _ (GetAuthToken false) w = (Resolved token, w0) ->
  handle _ (Fetch Connections token) w0 = (o1, w1) ->
  handle _ (Fetch OtherContacts token) w1 = (o2, w2) ->
  handle _ DateNow w2 = (now, w3) ->
  handle _ (Fetch (CalendarEvents (now - thirtyDays)) token) w3 = (o3, w4) ->
  handle _ DateNow w4 = (stamp, w5) ->
  handle _ (StorageSet CACHE_KEY
              {| data := mergeContacts (peopleOf false o1) (peopleOf true o2) (attendeesOf o3);
                 timestamp := stamp |}) w5 = (Resolved tt, w6) ->
  run handle refreshContacts w =
  mkRun (Resolved (mergeContacts (peopleOf false o1) (peopleOf true o2) (attendeesOf o3)))
        w6
        [Called (GetAuthToken false);
         Called (Fetch Connections token); Called (Fetch OtherContacts token);
         Called DateNow; Called (Fetch (CalendarEvents (now - thirtyDays)) token);
         Called DateNow;
         Called (StorageSet CACHE_KEY
                   {| data := mergeContacts (peopleOf false o1) (peopleOf true o2)
                                            (attendeesOf o3);
                      timestamp := stamp |})].
Proof.
  intros Hauth H1 H2 Hnow H3 Hstamp Hset. unfold refreshContacts, await, call.
  rewrite run_tryCatch. cbn [bind]. rewrite (run_Vis _ _ _ _ _ _ Hauth).
  cbn [settle bind]. rewrite run_bind.
  rewrite (run_fetchAllContacts _ _ _ _ _ _ _ _ _ _ _ H1 H2 Hnow H3).
  unfold andThen; cbn [settled final trace bind].
  rewrite (run_Vis _ _ _ _ _ _ Hstamp). cbn [bind].
  rewrite (run_Vis _ _ _ _ _ _ Hset). reflexivity.
Qed.

(** The refresh when no credential arrives. *)
Lemma run_refreshContacts_no_token w e w0 :
  handle _ (GetAuthToken false) w = (Rejected e, w0) ->
  run handle refreshContacts w = mkRun (Resolved []) w0 [Called (GetAuthToken false)].
Proof.
  intros Hauth. unfold refreshContacts, await.
  rewrite run_tryCatch. cbn [bind]. rewrite (run_Vis _ _ _ _ _ _ Hauth).
  reflexivity.
Qed.

(** [getContacts(true)] is the refresh. *)
Lemma run_getContacts_forced w :
  run handle (getContacts true) w = run handle refreshContacts w.
Proof. reflexivity. Qed.

(** A cache younger than [CACHE_DURATION] is returned after two calls. *)
Lemma run_getContacts_fresh w cachedData w1 now w2 :
  handle _ (StorageGet CACHE_KEY) w = (Resolved (Some cachedData), w1) ->
  handle _ DateNow w1 = (now, w2) ->
  (now - timestamp cachedData < CACHE_DURATION)%Z ->
  run handle (getContacts false) w =
  mkRun (Resolved (data cachedData)) w2 [Called (StorageGet CACHE_KEY); Called DateNow].
Proof.
  intros Hget Hnow Hage. unfold getContacts, await, call. cbn [negb bind].
  rewrite (run_Vis _ _ _ _ _ _ Hget). cbn [settle bind].
  rewrite (run_Vis _ _ _ _ _ _ Hnow).
  apply Z.ltb_lt in Hage. rewrite Hage. reflexivity.
Qed.

(** No cache: the refresh follows the read. *)
Lemma run_getContacts_absent w w1 :
  handle _ (StorageGet CACHE_KEY) w = (Resolved None, w1) ->
  run handle (getContacts false) w =
  after [Called (StorageGet CACHE_KEY)] (run handle refreshContacts w1).
Proof.
  intros Hget. unfold getContacts, await. cbn [negb bind].
  rewrite (run_Vis _ _ _ _ _ _ Hget). reflexivity.
Qed.

(** A cache aged [CACHE_DURATION] or more: the refresh follows the check. *)
Lemma run_getContacts_stale w cachedData w1 now w2 :
  handle _ (StorageGet CACHE_KEY) w = (Resolved (Some cachedData), w1) ->
  handle _ DateNow w1 = (now, w2) ->
  (CACHE_DURATION <= now - timestamp cachedData)%Z ->
  run handle (getContacts false) w =
  after [Called (StorageGet CACHE_KEY); Called DateNow] (run handle refreshContacts w2).
Proof.
  intros Hget Hnow Hage. unfold getContacts, await, call. cbn [negb bind].
  rewrite (run_Vis _ _ _ _ _ _ Hget). cbn [settle bind].
  rewrite (run_Vis _ _ _ _ _ _ Hnow).
  apply Z.ltb_ge in Hage. rewrite Hage. rewrite after_after. reflexivity.
Qed.

(** A rejected cache read rejects [getContacts(false)]. *)
Lemma run_getContacts_read_rejected w e w1 :
  handle _ (StorageGet CACHE_KEY) w = (Rejected e, w1) ->
  run handle (getContacts false) w =
  mkRun (Rejected e) w1 [Called (StorageGet CACHE_KEY)].
Proof.
  intros Hget. unfold getContacts, await. cbn [negb bind].
  rewrite (run_Vis _ _ _ _ _ _ Hget). reflexivity.
Qed.

End Aggregator.

Lemma NoThrow_refreshContacts : NoThrow refreshContacts.
Proof. apply NoThrow_tryCatch. intros _. constructor. Qed.

Lemma NoThrow_getContacts_forced : NoThrow (getContacts true).
Proof. exact NoThrow_refreshContacts. Qed.

Lemma NoThrow_searchContacts query : NoThrow (searchContacts query).
Proof.
  unfold searchContacts.
  destruct (negb (truthy (Some query)) || (String.length query <? 2)%nat).
  - constructor.
  - apply NoThrow_tryCatch. intros _. constructor.
Qed.

Lemma NoThrow_fetchAllContacts token : NoThrow (fetchAllContacts token).
Proof.
  unfold fetchAllContacts.
  repeat (apply NoThrow_bind;
          [apply NoThrow_tryCatch; intros _; constructor | intros ?]).
  constructor.
Qed.

Lemma searchContacts_short query :
  (String.length query < 2)%nat -> searchContacts query = Ret [].
Proof.
  intros Hlen. unfold searchContacts.
  apply Nat.ltb_lt in Hlen. rewrite Hlen, orb_true_r. reflexivity.
Qed.

(** ** The shared mapping rule *)

Lemma personToContact_rule item : personToContact item = personByRule item.
Proof.
  unfold personToContact, personByRule, sharedRule, orElse, orDefault, available, truthy.
  destruct (chain (first (Person.emailAddresses item)) Person.value) as [e|];
    [|reflexivity].
  destruct (String.eqb e "") eqn:Ee; simpl; [reflexivity|].
  destruct (Person.resourceName item) as [r|];
    [destruct (String.eqb r "")|];
    (destruct (chain (first (Person.names item)) Person.displayName) as [n|];
     [destruct (String.eqb n "") eqn:En|]);
    simpl; rewrite ?En, ?Ee; simpl; rewrite ?Ee; reflexivity.
Qed.

Lemma map_personToContact_rule l : map personToContact l = map personByRule l.
Proof. apply map_ext. exact personToContact_rule. Qed.

Lemma mapM_persons (persons : list Person.t) :
  mapM (fun result : SearchResult.t =>
          match SearchResult.person result with
          | Some item => Ret (personToContact item)
          | None => Throw TypeError
          end)
       (map (fun p => {| SearchResult.person := Some p |}) persons)
  = Ret (map personToContact persons).
Proof.
  induction persons as [|p ps IH]; simpl; [reflexivity|].
  rewrite IH. reflexivity.
Qed.

Lemma peopleOf_list (isOther : bool) res data list :
  ok res = true -> json res = Resolved data ->
  (if isOther then Body.otherContacts data else Body.connections data) = Some list ->
  peopleOf isOther (Resolved res) = filterNotNull (map personToContact list).
Proof.
  intros Hok Hjson Hlist. unfold peopleOf. rewrite Hok, Hjson, Hlist. reflexivity.
Qed.

Section SearchPath.
Context {W : Type} (handle : Handler W).

Lemma run_searchContacts query token w w0 res w1 data persons :
  (2 <= String.length query)%nat ->
  handle _ (GetAuthToken false) w = (Resolved token, w0) ->
  handle _ (Fetch (OtherContactsSearch query) token) w0 = (Resolved res, w1) ->
  ok res = true -> json res = Resolved data ->
  Body.results data = Some (map (fun p => {| SearchResult.person := Some p |}) persons) ->
  run handle (searchContacts query) w =
  mkRun (Resolved (filterNotNull (map personToContact persons))) w1
        [Called (GetAuthToken false); Called (Fetch (OtherContactsSearch query) token)].
Proof.
  intros Hlen Hauth Hfetch Hok Hjson Hres. unfold searchContacts, await.
  assert (Hguard : negb (truthy (Some query)) || (String.length query <? 2)%nat = false).
  { apply orb_false_iff. split.
    - destruct query; [simpl in Hlen; lia | reflexivity].
    - apply Nat.ltb_ge. exact Hlen. }
  rewrite Hguard, run_tryCatch. cbn [bind].
  rewrite (run_Vis _ _ _ _ _ _ Hauth). cbn [settle bind].
  rewrite (run_Vis _ _ _ _ _ _ Hfetch). cbn [settle bind].
  rewrite Hok, Hjson. cbn [negb settle bind]. rewrite Hres, mapM_persons.
  reflexivity.
Qed.

End SearchPath.

(** C6, as amended. For every entry of the two People API sources and of
    the search path, the contact is the one the shared rule gives on the
    first entry of the person's names, email addresses and photos, an empty
    string counting as missing for name, email and id; an entry the rule
    discards yields no contact. For the recent-attendees source the contact
    has the attendee's email as email and as id, no photo, and as name the
    attendee's display name, else what precedes the first ['@'] of the
    email. *)
Theorem mapping_rule {W : Type} (handle : Handler W) :
  (forall item, personToContact item = personByRule item)
  /\ (forall url token (isOther : bool) w res w' data list,
         handle _ (Fetch url token) w = (Resolved res, w') ->
         ok res = true -> json res = Resolved data ->
         (if isOther then Body.otherContacts data else Body.connections data) = Some list ->
         settled (run handle (fetchPeople url token isOther) w) =
         Resolved (filterNotNull (map personByRule list)))
  /\ (forall query token w w0 res w1 data persons,
         (2 <= String.length query)%nat ->
         handle _ (GetAuthToken false) w = (Resolved token, w0) ->
         handle _ (Fetch (OtherContactsSearch query) token) w0 = (Resolved res, w1) ->
         ok res = true -> json res = Resolved data ->
         Body.results data = Some (map (fun p => {| SearchResult.person := Some p |}) persons) ->
         settled (run handle (searchContacts query) w) =
         Resolved (filterNotNull (map personByRule persons)))
  /\ (forall items c,
         In c (attendeeContacts items) ->
         Contact.id c = Contact.email c
         /\ Contact.photoUrl c = None
         /\ exists event attendees att,
              In event items /\ CalEvent.attendees event = Some attendees
              /\ In att attendees
              /\ Attendee.email att = Some (Contact.email c)
              /\ Contact.name c =
                 match available (Attendee.displayName att) with
                 | Some n => n
                 | None => beforeAt (Contact.email c)
                 end).
Proof.
  split; [exact personToContact_rule|]. split; [|split].
  - intros url token isOther w res w' data list Hfetch Hok Hjson Hlist.
    rewrite (run_fetchPeople handle _ _ _ _ _ _ Hfetch). cbn [settled].
    rewrite (peopleOf_list _ _ _ _ Hok Hjson Hlist), map_personToContact_rule.
    reflexivity.
  - intros query token w w0 res w1 data persons Hlen Hauth Hfetch Hok Hjson Hres.
    rewrite (run_searchContacts handle _ _ _ _ _ _ _ _ Hlen Hauth Hfetch Hok Hjson Hres).
    cbn [settled]. rewrite map_personToContact_rule. reflexivity.
  - intros items c Hin.
    pose proof (entry_unique _ (attendeeContacts_NoDup items) c Hin) as He.
    rewrite attendeeContacts_entry in He.
    apply entry_Some in He. destruct He as [Hc _].
    apply In_filterNotNull, in_map_iff in Hc. destruct Hc as [att [Hatt Hall]].
    apply In_allAttendees in Hall. destruct Hall as (event & l & Hev & Hl & Hin').
    apply attendeeToContact_Some in Hatt.
    destruct Hatt as (He & _ & _ & _ & Hid & Hname & Hphoto).
    split; [exact Hid|]. split; [exact Hphoto|].
    exists event, l, att. repeat split; try assumption.
    rewrite Hname. unfold orDefault, available.
    destruct (Attendee.displayName att) as [n|]; [|reflexivity].
    destruct (String.eqb n ""); reflexivity.
Qed.

(** ** Runs against the sample directory *)

Example getContacts_first_run :
  settled (run Chrome.handle (getContacts false) (browser 1700000000000 None directory))
  = Resolved [ann; carol; bob].
Proof. reflexivity. Qed.

Example searchContacts_al :
  settled (run Chrome.handle (searchContacts "al") (browser 1700000000000 None directory))
  = Resolved [alice].
Proof. reflexivity. Qed.

(** C6 as stated fails on the recent-attendees source: bob, who has no
    display name, is named by the part of his email before the ['@'], which
    the shared rule gives for no attendee of the meeting. *)
Lemma attendee_name_not_by_rule :
  In bob (attendeeContacts [meeting])
  /\ forall att, In att (allAttendees [meeting]) ->
       sharedRule (Attendee.displayName att) (Attendee.email att) None None <> Some bob.
Proof.
  split; [left; reflexivity|].
  intros att [<-|[<-|[<-|[<-|[]]]]]; discriminate.
Qed.

Lemma mapping_rule_witness :
  settled (run Chrome.handle (searchContacts "al") (browser 1700000000000 None directory))
  = Resolved (filterNotNull (map personByRule [alicePerson]))
  /\ Contact.id bob = Contact.email bob.
Proof.
  destruct (mapping_rule Chrome.handle) as (_ & _ & Hsearch & Hatt).
  split.
  - eapply (Hsearch "al" "ya29.a0" _ _ _ _ _ [alicePerson]); reflexivity.
  - apply (Hatt [meeting] bob). left. reflexivity.
Defined.

(** ** The cache policy *)

(** C3. With [forceRefresh] false and a cache whose age at the check is
    below 24 hours, [getContacts] returns the cached list after the storage
    read and the clock read, with no other call. With [forceRefresh] true,
    or no cache, or a cache aged 24 hours or more, it goes on with the
    refresh; and when the credential arrives and the cache write succeeds,
    the refresh requests the three sources, reads the clock, writes the
    envelope of the merged list and that time as its last call, and returns
    the merged list. *)
Theorem cache_policy {W : Type} (handle : Handler W) :
  (forall w cachedData w1 now w2,
      handle _ (StorageGet CACHE_KEY) w = (Resolved (Some cachedData), w1) ->
      handle _ DateNow w1 = (now, w2) ->
      (now - timestamp cachedData < 24 * 60 * 60 * 1000)%Z ->
      run handle (getContacts false) w =
      mkRun (Resolved (data cachedData)) w2
            [Called (StorageGet CACHE_KEY); Called DateNow])
  /\ (forall w, run handle (getContacts true) w = run handle refreshContacts w)
  /\ (forall w w1,
         handle _ (StorageGet CACHE_KEY) w = (Resolved None, w1) ->
         run handle (getContacts false) w =
         after [Called (StorageGet CACHE_KEY)] (run handle refreshContacts w1))
  /\ (forall w cachedData w1 now w2,
         handle _ (StorageGet CACHE_KEY) w = (Resolved (Some cachedData), w1) ->
         handle _ DateNow w1 = (now, w2) ->
         (24 * 60 * 60 * 1000 <= now - timestamp cachedData)%Z ->
         run handle (getContacts false) w =
         after [Called (StorageGet CACHE_KEY); Called DateNow]
               (run handle refreshContacts w2))
  /\ (forall token w w0 o1 w1 o2 w2 now w3 o3 w4 stamp w5 w6,
         handle _ (GetAuthToken false) w = (Resolved token, w0) ->
         handle _ (Fetch Connections token) w0 = (o1, w1) ->
         handle _ (Fetch OtherContacts token) w1 = (o2, w2) ->
         handle _ DateNow w2 = (now, w3) ->
         handle _ (Fetch (CalendarEvents (now - thirtyDays)) token) w3 = (o3, w4) ->
         handle _ DateNow w4 = (stamp, w5) ->
         handle _ (StorageSet CACHE_KEY
                     {| data := mergeContacts (peopleOf false o1) (peopleOf true o2)
                                              (attendeesOf o3);
                        timestamp := stamp |}) w5 = (Resolved tt, w6) ->
         run handle refreshContacts w =
         mkRun (Resolved (mergeContacts (peopleOf false o1) (peopleOf true o2)
                                        (attendeesOf o3)))
               w6
               [Called (GetAuthToken false);
                Called (Fetch Connections token); Called (Fetch OtherContacts token);
                Called DateNow; Called (Fetch (CalendarEvents (now - thirtyDays)) token);
                Called DateNow;
                Called (StorageSet CACHE_KEY
                          {| data := mergeContacts (peopleOf false o1) (peopleOf true o2)
                                                   (attendeesOf o3);
                             timestamp := stamp |})]).
Proof.
  split; [exact (run_getContacts_fresh handle)|].
  split; [exact (run_getContacts_forced handle)|].
  split; [exact (run_getContacts_absent handle)|].
  split; [exact (run_getContacts_stale handle)|].
  exact (run_refreshContacts handle).
Qed.

(** The cache one hour old is served without a request; the cache 25 hours
    old is refreshed and replaced. *)
Lemma cache_policy_witness :
  settled (run Chrome.handle (getContacts false) freshBrowser) = Resolved [alice]
  /\ map isFetch (trace (run Chrome.handle (getContacts false) freshBrowser))
     = [false; false]
  /\ settled (run Chrome.handle (getContacts false) staleBrowser)
     = Resolved [ann; carol; bob]
  /\ Chrome.stored (final (run Chrome.handle (getContacts false) staleBrowser)) CACHE_KEY
     = Some {| data := [ann; carol; bob]; timestamp := 1700000000250 |}.
Proof.
  destruct (cache_policy Chrome.handle) as (Hfresh & _ & _ & Hstale & Hrefresh).
  rewrite (Hfresh freshBrowser _ _ _ _ eq_refl eq_refl eq_refl).
  rewrite (Hstale staleBrowser _ _ _ _ eq_refl eq_refl
                  ltac:(vm_compute; discriminate)).
  rewrite (Hrefresh "ya29.a0" (Chrome.elapse staleBrowser) _ _ _ _ _ _ _ _ _ _ _ _
                    eq_refl eq_refl eq_refl eq_refl eq_refl eq_refl eq_refl).
  repeat split; reflexivity.
Defined.

(** ** Fault tolerance of the sources *)

(** C5. Whatever the three requests settle to, [fetchAllContacts] resolves
    to the merge of three lists, each a function of its own request only;
    a source whose request threw, was answered with a non-success status or
    an unparsable body, or lacks its list field, contributes the empty list,
    and the merge is that of the other two; and [getContacts], once it has
    the credential and its cache write succeeds, returns this merge. *)
Theorem sources_fail_independently {W : Type} (handle : Handler W)
    token w0 o1 w1 o2 w2 now w3 o3 w4 :
  handle _ (Fetch Connections token) w0 = (o1, w1) ->
  handle _ (Fetch OtherContacts token) w1 = (o2, w2) ->
  handle _ DateNow w2 = (now, w3) ->
  handle _ (Fetch (CalendarEvents (now - thirtyDays)) token) w3 = (o3, w4) ->
  settled (run handle (fetchAllContacts token) w0) =
    Resolved (mergeContacts (peopleOf false o1) (peopleOf true o2) (attendeesOf o3))
  /\ (Failed Body.connections o1 ->
      settled (run handle (fetchAllContacts token) w0) =
      Resolved (mergeContacts [] (peopleOf true o2) (attendeesOf o3)))
  /\ (Failed Body.otherContacts o2 ->
      settled (run handle (fetchAllContacts token) w0) =
      Resolved (mergeContacts (peopleOf false o1) [] (attendeesOf o3)))
  /\ (Failed Body.items o3 ->
      settled (run handle (fetchAllContacts token) w0) =
      Resolved (mergeContacts (peopleOf false o1) (peopleOf true o2) []))
  /\ (forall w stamp w5 w6,
         handle _ (GetAuthToken false) w = (Resolved token, w0) ->
         handle _ DateNow w4 = (stamp, w5) ->
         handle _ (StorageSet CACHE_KEY
                     {| data := mergeContacts (peopleOf false o1) (peopleOf true o2)
                                              (attendeesOf o3);
                        timestamp := stamp |}) w5 = (Resolved tt, w6) ->
         settled (run handle (getContacts true) w) =
         Resolved (mergeContacts (peopleOf false o1) (peopleOf true o2) (attendeesOf o3))).
Proof.
  intros H1 H2 Hnow H3.
  rewrite (run_fetchAllContacts handle _ _ _ _ _ _ _ _ _ _ H1 H2 Hnow H3).
  cbn [settled].
  split; [reflexivity|].
  split; [intros F; rewrite (Failed_peopleOf_connections _ F); reflexivity|].
  split; [intros F; rewrite (Failed_peopleOf_otherContacts _ F); reflexivity|].
  split; [intros F; rewrite (Failed_attendeesOf _ F); reflexivity|].
  intros w stamp w5 w6 Hauth Hstamp Hset.
  rewrite run_getContacts_forced.
  rewrite (run_refreshContacts handle _ _ _ _ _ _ _ _ _ _ _ _ _ _
             Hauth H1 H2 Hnow H3 Hstamp Hset).
  reflexivity.
Qed.

(** The calendar request throws: the contacts of the other two sources are
    returned. *)
Lemma sources_fail_independently_witness :
  settled (run Chrome.handle (getContacts true)
             (browser 1700000000000 None calendarDown))
  = Resolved [ann; carol].
Proof.
  destruct (sources_fail_independently Chrome.handle "ya29.a0"
              (Chrome.elapse (browser 1700000000000 None calendarDown))
              _ _ _ _ _ _ _ _ eq_refl eq_refl eq_refl eq_refl)
    as (_ & _ & _ & _ & Hget).
  rewrite (Hget (browser 1700000000000 None calendarDown) _ _ _
                eq_refl eq_refl eq_refl).
  reflexivity.
Defined.

(** ** The guard of [searchContacts] *)

(** C8. A query shorter than two characters, the empty one included, makes
    [searchContacts] the program that returns the empty list: run against
    any outside it resolves to the empty list, leaves the outside as it
    was and makes no call, so neither a request nor a credential request. *)
Theorem search_short_query (query : string) :
  (String.length query < 2)%nat ->
  searchContacts query = Ret []
  /\ forall (W : Type) (handle : Handler W) (w : W),
       run handle (searchContacts query) w = mkRun (Resolved []) w [].
Proof.
  intros Hlen. rewrite (searchContacts_short query Hlen).
  split; reflexivity.
Qed.

Lemma search_short_query_witness :
  run Chrome.handle (searchContacts "a") (browser 1700000000000 None directory)
  = mkRun (Resolved []) (browser 1700000000000 None directory) [].
Proof.
  apply (proj2 (search_short_query "a" ltac:(simpl; lia))).
Defined.

(** ** Failures that reach the caller *)

(** What the two operations do absorb: a forced [getContacts] and
    [searchContacts] never throw, whatever the outside answers. *)
Lemma failures_absorbed {W : Type} (handle : Handler W) (w : W) :
  (exists l, settled (run handle (getContacts true) w) = Resolved l)
  /\ (forall query, exists l, settled (run handle (searchContacts query) w) = Resolved l).
Proof.
  split.
  - apply NoThrow_run, NoThrow_getContacts_forced.
  - intros query. apply NoThrow_run, NoThrow_searchContacts.
Qed.

(** Without a credential both resolve to the empty list. *)
Lemma no_credential_no_contacts {W : Type} (handle : Handler W) w e w0 :
  handle _ (GetAuthToken false) w = (Rejected e, w0) ->
  settled (run handle (getContacts true) w) = Resolved []
  /\ forall query, settled (run handle (searchContacts query) w) = Resolved [].
Proof.
  intros Hauth. split.
  - rewrite run_getContacts_forced, (run_refreshContacts_no_token handle _ _ _ Hauth).
    reflexivity.
  - intros query. unfold searchContacts, await.
    destruct (negb (truthy (Some query)) || (String.length query <? 2)%nat);
      [reflexivity|].
    rewrite run_tryCatch. cbn [bind]. rewrite (run_Vis handle _ _ _ _ _ Hauth).
    reflexivity.
Qed.

(** Once the cache read has resolved, [getContacts(false)] does not throw
    either. *)
Lemma getContacts_after_read {W : Type} (handle : Handler W) w cache w1 :
  handle _ (StorageGet CACHE_KEY) w = (Resolved cache, w1) ->
  exists l, settled (run handle (getContacts false) w) = Resolved l.
Proof.
  intros Hget. unfold getContacts, await, call. cbn [negb bind].
  rewrite (run_Vis handle _ _ _ _ _ Hget). cbn [settle bind after settled].
  destruct cache as [cachedData|].
  - cbn [bind]. destruct (handle _ DateNow w1) as [now w2] eqn:Hnow.
    rewrite (run_Vis handle _ _ _ _ _ Hnow). cbn [bind after settled].
    destruct (now - timestamp cachedData <? CACHE_DURATION)%Z.
    + eexists. reflexivity.
    + apply NoThrow_run, NoThrow_refreshContacts.
  - apply NoThrow_run, NoThrow_refreshContacts.
Qed.

(** C4, at the input where it fails. The cache read of [getContacts] is
    awaited before the [try] statement: when [chrome.storage.local.get]
    rejects, [getContacts(false)] makes no further call and rejects with the
    same reason instead of resolving to the empty list. *)
Theorem getContacts_read_failure_propagates {W : Type} (handle : Handler W) w e w1 :
  handle _ (StorageGet CACHE_KEY) w = (Rejected e, w1) ->
  run handle (getContacts false) w =
  mkRun (Rejected e) w1 [Called (StorageGet CACHE_KEY)]
  /\ settled (run handle (getContacts false) w) <> Resolved [].
Proof.
  intros Hget. rewrite (run_getContacts_read_rejected handle _ _ _ Hget).
  split; [reflexivity | discriminate].
Qed.

Lemma getContacts_read_failure_propagates_witness :
  settled (run Chrome.handle (getContacts false) storageDown)
  = Rejected (Failure "storage unavailable").
Proof.
  rewrite (proj1 (getContacts_read_failure_propagates
                    Chrome.handle storageDown _ _ eq_refl)).
  reflexivity.
Defined.

(** ** Total failure of the sources is cached *)

(** The refresh in a browser that hands out the credential and accepts the
    cache write while all three requests fail. *)
Lemma chrome_refresh_all_failed (u : Chrome.World) (token : string) :
  Chrome.identity u = Resolved token ->
  Chrome.writeFault u = None ->
  Failed Body.connections (Chrome.network u Connections) ->
  Failed Body.otherContacts (Chrome.network u OtherContacts) ->
  (forall timeMin, Failed Body.items (Chrome.network u (CalendarEvents timeMin))) ->
  settled (run Chrome.handle refreshContacts u) = Resolved []
  /\ Chrome.stored (final (run Chrome.handle refreshContacts u)) CACHE_KEY
     = Some {| data := [];
               timestamp := (Chrome.clock (final (run Chrome.handle refreshContacts u))
                             - Chrome.latency u)%Z |}
  /\ existsb isStorageSet (trace (run Chrome.handle refreshContacts u)) = true.
Proof.
  intros Hid Hwrite F1 F2 F3.
  pose (u1 := Chrome.elapse u). pose (u2 := Chrome.elapse u1).
  pose (u3 := Chrome.elapse u2). pose (u4 := Chrome.elapse u3).
  pose (envelope := {| data := mergeContacts
                                 (peopleOf false (Chrome.network u Connections))
                                 (peopleOf true (Chrome.network u OtherContacts))
                                 (attendeesOf
                                    (Chrome.network u
                                       (CalendarEvents (Chrome.clock u3 - thirtyDays))));
                       timestamp := Chrome.clock u4 |}).
  assert (Hrun : run Chrome.handle refreshContacts u =
                 mkRun (Resolved (data envelope))
                       (Chrome.elapse (Chrome.store CACHE_KEY envelope u4))
                       [Called (GetAuthToken false);
                        Called (Fetch Connections token);
                        Called (Fetch OtherContacts token);
                        Called DateNow;
                        Called (Fetch (CalendarEvents (Chrome.clock u3 - thirtyDays)) token);
                        Called DateNow;
                        Called (StorageSet CACHE_KEY envelope)]).
  { apply (run_refreshContacts Chrome.handle token u u1 _ u2 _ u3
             (Chrome.clock u3) u3 _ u4 (Chrome.clock u4) u4).
    - simpl. rewrite Hid. reflexivity.
    - reflexivity.
    - reflexivity.
    - reflexivity.
    - reflexivity.
    - reflexivity.
    - simpl. rewrite Hwrite. reflexivity. }
  assert (Hdata : data envelope = []).
  { simpl. rewrite (Failed_peopleOf_connections _ F1),
      (Failed_peopleOf_otherContacts _ F2), (Failed_attendeesOf _ (F3 _)).
    reflexivity. }
  rewrite Hrun. cbn [settled final trace].
  split; [rewrite Hdata; reflexivity|].
  split; [|reflexivity].
  simpl. f_equal. destruct envelope as [d t] eqn:E. simpl in Hdata. subst d.
  f_equal. injection E as _ <-. simpl. lia.
Qed.

(** C10. When [getContacts] takes the network path (refresh forced, or the
    cache read and found absent or aged 24 hours or more), the credential
    arrives, the cache write is accepted and each of the three sources
    fails, it returns the empty list and leaves under the cache key the
    envelope of the empty list and the time read just before the write;
    and [getContacts(false)] in any later state of the browser that still
    holds this envelope and checks it less than 24 hours after that time
    returns the empty list after the storage read and the clock read, with
    no request and no credential request. *)
Theorem total_failure_is_cached (w : Chrome.World) (forceRefresh : bool) (token : string) :
  forceRefresh = true
  \/ (Chrome.readFault w = None
      /\ (Chrome.stored w CACHE_KEY = None
          \/ exists cachedData,
               Chrome.stored w CACHE_KEY = Some cachedData
               /\ (24 * 60 * 60 * 1000
                   <= Chrome.clock w + Chrome.latency w - timestamp cachedData)%Z)) ->
  Chrome.identity w = Resolved token ->
  Chrome.writeFault w = None ->
  Failed Body.connections (Chrome.network w Connections) ->
  Failed Body.otherContacts (Chrome.network w OtherContacts) ->
  (forall timeMin, Failed Body.items (Chrome.network w (CalendarEvents timeMin))) ->
  exists stamp,
    settled (run Chrome.handle (getContacts forceRefresh) w) = Resolved []
    /\ existsb isStorageSet (trace (run Chrome.handle (getContacts forceRefresh) w)) = true
    /\ stamp = (Chrome.clock (final (run Chrome.handle (getContacts forceRefresh) w))
                - Chrome.latency w)%Z
    /\ Chrome.stored (final (run Chrome.handle (getContacts forceRefresh) w)) CACHE_KEY
       = Some {| data := []; timestamp := stamp |}
    /\ forall later,
         Chrome.stored later CACHE_KEY = Some {| data := []; timestamp := stamp |} ->
         Chrome.readFault later = None ->
         (Chrome.clock later + Chrome.latency later - stamp < 24 * 60 * 60 * 1000)%Z ->
         run Chrome.handle (getContacts false) later =
         mkRun (Resolved []) (Chrome.elapse later)
               [Called (StorageGet CACHE_KEY); Called DateNow].
Proof.
  intros Hpath Hid Hwrite F1 F2 F3.
  assert (Hrefresh : exists u evs,
             run Chrome.handle (getContacts forceRefresh) w =
             after evs (run Chrome.handle refreshContacts u)
             /\ Chrome.identity u = Resolved token
             /\ Chrome.writeFault u = None
             /\ Chrome.network u = Chrome.network w
             /\ Chrome.latency u = Chrome.latency w).
  { destruct forceRefresh.
    - exists w, []. rewrite after_nil. repeat split; assumption.
    - destruct Hpath as [Hforced|[Hread [Habsent|[c [Hc Hage]]]]]; [discriminate| |].
      + exists (Chrome.elapse w), [Called (StorageGet CACHE_KEY)].
        repeat split; try assumption.
        apply run_getContacts_absent. simpl. rewrite Hread, Habsent. reflexivity.
      + exists (Chrome.elapse w), [Called (StorageGet CACHE_KEY); Called DateNow].
        repeat split; try assumption.
        apply (run_getContacts_stale Chrome.handle w c (Chrome.elapse w)
                 (Chrome.clock w + Chrome.latency w)%Z (Chrome.elapse w)).
        * simpl. rewrite Hread, Hc. reflexivity.
        * reflexivity.
        * exact Hage. }
  destruct Hrefresh as (u & evs & Hrun & Hid' & Hwrite' & Hnet & Hlat).
  rewrite <- Hnet in F1, F2, F3.
  destruct (chrome_refresh_all_failed u token Hid' Hwrite' F1 F2 F3)
    as (Hsettled & Hstored & Hset).
  exists (Chrome.clock (final (run Chrome.handle (getContacts forceRefresh) w))
          - Chrome.latency w)%Z.
  rewrite Hrun. unfold after at 1 2 3 4 5. cbn [settled final trace].
  split; [exact Hsettled|].
  split; [rewrite existsb_app, Hset; apply orb_true_r|].
  split; [reflexivity|].
  split; [rewrite <- Hlat; exact Hstored|].
  intros later Hlater Hread Hage.
  apply (run_getContacts_fresh Chrome.handle later
           {| data := [];
              timestamp := (Chrome.clock (final (run Chrome.handle refreshContacts u))
                            - Chrome.latency w)%Z |}
           (Chrome.elapse later)
           (Chrome.clock later + Chrome.latency later)%Z (Chrome.elapse later)).
  - simpl. rewrite Hread, Hlater. reflexivity.
  - reflexivity.
  - exact Hage.
Qed.

(** All three requests fail on a forced refresh; half an hour later the
    empty list is served from the cache. *)
Lemma total_failure_is_cached_witness :
  settled (run Chrome.handle (getContacts true) (browser 1700000000000 None allDown))
  = Resolved []
  /\ settled (run Chrome.handle (getContacts false)
                (browser 1700001800000
                         (Some {| data := []; timestamp := 1700000000200 |})
                         directory))
     = Resolved []
  /\ map isFetch
         (trace (run Chrome.handle (getContacts false)
                   (browser 1700001800000
                            (Some {| data := []; timestamp := 1700000000200 |})
                            directory)))
     = [false; false].
Proof.
  destruct (total_failure_is_cached (browser 1700000000000 None allDown) true "ya29.a0")
    as (stamp & Hsettled & _ & Hstamp & _ & Hlater).
  - left. reflexivity.
  - reflexivity.
  - reflexivity.
  - exact I.
  - left. reflexivity.
  - intros timeMin. right. right. eexists. split; reflexivity.
  - split; [exact Hsettled|].
    vm_compute in Hstamp. subst stamp.
    rewrite (Hlater (browser 1700001800000
                             (Some {| data := []; timestamp := 1700000000200 |})
                             directory)
                    eq_refl eq_refl eq_refl).
    split; reflexivity.
Defined.

(** ** More on the merge: order, membership, disjoint sources *)

Lemma has_keys {V : Type} (m : JsMap.t V) k :
  JsMap.has m k = existsb (String.eqb k) (JsMap.keys m).
Proof.
  unfold JsMap.has, JsMap.keys.
  induction m as [|[k0 v0] m IH]; simpl; [reflexivity|].
  rewrite (String.eqb_sym k k0).
  destruct (String.eqb k0 k); [reflexivity | exact IH].
Qed.

Lemma firstSeen_app seen a b :
  firstSeen seen (a ++ b) =
  firstSeen seen a ++ firstSeen (seen ++ firstSeen seen a) b.
Proof.
  revert seen. induction a as [|x a IH]; intros seen; simpl.
  - rewrite app_nil_r. reflexivity.
  - destruct (existsb (String.eqb x) seen).
    + apply IH.
    + rewrite IH. simpl. rewrite <- app_assoc. reflexivity.
Qed.

Lemma keys_recordAll l : forall m,
  JsMap.keys (recordAll m l) =
  JsMap.keys m ++ firstSeen (JsMap.keys m) (map Contact.email l).
Proof.
  unfold recordAll. induction l as [|c l IH]; simpl; intros m.
  - symmetry. apply app_nil_r.
  - rewrite IH, keys_set, <- has_keys.
    destruct (JsMap.has m (Contact.email c)); [reflexivity|].
    rewrite <- app_assoc. reflexivity.
Qed.

Lemma keys_recordMissing l : forall m,
  JsMap.keys (recordMissing m l) =
  JsMap.keys m ++ firstSeen (JsMap.keys m) (map Contact.email l).
Proof.
  unfold recordMissing. induction l as [|c l IH]; simpl; intros m.
  - symmetry. apply app_nil_r.
  - rewrite IH, <- has_keys.
    destruct (JsMap.has m (Contact.email c)) eqn:Hh; simpl; [reflexivity|].
    rewrite keys_set, Hh, <- app_assoc. reflexivity.
Qed.

(** X1. The emails of the merged list are the emails of source 1, then
    source 2, then source 3, each at its first occurrence: the merged list
    is ordered by priority, and within a source by position. *)
Theorem merge_order (s1 s2 s3 : list Contact.t) :
  map Contact.email (mergeContacts s1 s2 s3) =
  firstSeen [] (map Contact.email (s1 ++ s2 ++ s3)).
Proof.
  unfold mergeContacts.
  rewrite Keyed_emails by apply Sound_merge.
  rewrite !keys_recordMissing, keys_recordAll. simpl.
  rewrite !map_app, !firstSeen_app. simpl.
  rewrite <- app_assoc. reflexivity.
Qed.

(** X2. The merge invents no contact and loses no email: each merged
    contact is a contact of one of the sources, and each email of a source
    has a contact in the merged list. *)
Theorem merge_members (s1 s2 s3 : list Contact.t) :
  (forall c, In c (mergeContacts s1 s2 s3) -> In c s1 \/ In c s2 \/ In c s3)
  /\ (forall c, In c (s1 ++ s2 ++ s3) ->
        exists c', In c' (mergeContacts s1 s2 s3)
                   /\ Contact.email c' = Contact.email c).
Proof.
  split.
  - intros c Hin.
    pose proof (entry_unique _ (merge_NoDup s1 s2 s3) c Hin) as He.
    rewrite merge_entry in He.
    destruct (lastEntry (Contact.email c) s1) as [c1|] eqn:H1.
    + injection He as <-. left. apply (lastEntry_In _ _ _ H1).
    + destruct (entry (Contact.email c) s2) as [c2|] eqn:H2.
      * injection He as <-. right. left. apply (entry_Some _ _ _ H2).
      * right. right. apply (entry_Some _ _ _ He).
  - intros c Hin.
    destruct (entry (Contact.email c) (mergeContacts s1 s2 s3)) as [c'|] eqn:He.
    + exists c'. apply entry_Some in He. exact He.
    + exfalso. rewrite merge_entry in He.
      destruct (lastEntry (Contact.email c) s1) eqn:H1; [discriminate|].
      destruct (entry (Contact.email c) s2) eqn:H2; [discriminate|].
      apply in_app_or in Hin. destruct Hin as [Hin|Hin].
      * destruct (lastEntry_found _ _ _ Hin eq_refl) as [c' Hc']. congruence.
      * apply in_app_or in Hin. destruct Hin as [Hin|Hin].
        -- exact (entry_None _ _ H2 c Hin eq_refl).
        -- exact (entry_None _ _ He c Hin eq_refl).
Qed.

Lemma set_fresh {V : Type} (m : JsMap.t V) k v :
  JsMap.has m k = false -> JsMap.set m k v = m ++ [(k, v)].
Proof.
  unfold JsMap.has. induction m as [|[k0 v0] m IH]; simpl; [reflexivity|].
  destruct (String.eqb k0 k); [discriminate|].
  intros H. rewrite (IH H). reflexivity.
Qed.

Lemma not_in_has {V : Type} (m : JsMap.t V) k :
  ~ In k (JsMap.keys m) -> JsMap.has m k = false.
Proof.
  intros Hnot. destruct (JsMap.has m k) eqn:Hh; [|reflexivity].
  exfalso. apply Hnot. rewrite has_keys in Hh.
  apply existsb_exists in Hh. destruct Hh as [x [Hx Heq]].
  apply String.eqb_eq in Heq. subst x. exact Hx.
Qed.

Lemma record_fresh l : forall m,
  NoDup (JsMap.keys m ++ map Contact.email l) ->
  recordAll m l = m ++ map (fun c => (Contact.email c, c)) l
  /\ recordMissing m l = m ++ map (fun c => (Contact.email c, c)) l.
Proof.
  unfold recordAll, recordMissing.
  induction l as [|c l IH]; simpl; intros m Hnd.
  - rewrite app_nil_r. split; reflexivity.
  - assert (Hfresh : JsMap.has m (Contact.email c) = false).
    { apply not_in_has. intros Hin.
      apply NoDup_remove_2 in Hnd. apply Hnd, in_or_app. left. exact Hin. }
    rewrite Hfresh. simpl. rewrite (set_fresh _ _ _ Hfresh).
    assert (Hnd' : NoDup (JsMap.keys (m ++ [(Contact.email c, c)])
                          ++ map Contact.email l)).
    { unfold JsMap.keys. rewrite map_app. simpl. rewrite <- app_assoc. exact Hnd. }
    destruct (IH _ Hnd') as [Ha Hm]. rewrite Ha, Hm, <- !app_assoc.
    split; reflexivity.
Qed.

(** X3. When no email occurs twice over the three sources, the merged list
    is source 1 followed by source 2 followed by source 3, unchanged. *)
Theorem merge_disjoint (s1 s2 s3 : list Contact.t) :
  NoDup (map Contact.email (s1 ++ s2 ++ s3)) ->
  mergeContacts s1 s2 s3 = s1 ++ s2 ++ s3.
Proof.
  intros Hnd. unfold mergeContacts.
  rewrite !map_app in Hnd.
  assert (H1 : recordAll JsMap.empty s1 = map (fun c => (Contact.email c, c)) s1).
  { apply (record_fresh s1 JsMap.empty). simpl.
    apply NoDup_app_remove_r in Hnd. exact Hnd. }
  assert (Hkeys : forall l, JsMap.keys (map (fun c => (Contact.email c, c)) l)
                            = map Contact.email l).
  { intros l. unfold JsMap.keys. rewrite map_map. reflexivity. }
  assert (H2 : recordMissing (recordAll JsMap.empty s1) s2
               = map (fun c => (Contact.email c, c)) (s1 ++ s2)).
  { rewrite H1, map_app. apply (record_fresh s2).
    rewrite Hkeys. rewrite app_assoc in Hnd.
    apply NoDup_app_remove_r in Hnd. exact Hnd. }
  rewrite H2.
  assert (H3 : recordMissing (map (fun c => (Contact.email c, c)) (s1 ++ s2)) s3
               = map (fun c => (Contact.email c, c)) ((s1 ++ s2) ++ s3)).
  { rewrite (map_app _ (s1 ++ s2) s3). apply (record_fresh s3).
    rewrite Hkeys, map_app, <- app_assoc. exact Hnd. }
  rewrite H3. unfold JsMap.values. rewrite map_map. simpl.
  rewrite map_id, <- app_assoc. reflexivity.
Qed.

Lemma merge_disjoint_witness :
  mergeContacts [ann] [carol] [bob] = [ann; carol; bob].
Proof.
  apply (merge_disjoint [ann] [carol] [bob]).
  simpl. repeat constructor; simpl; intuition discriminate.
Defined.

(** ** What the sources hand to the merge *)

Lemma personToContact_filled item c :
  personToContact item = Some c ->
  Contact.email c <> "" /\ Contact.id c <> "" /\ Contact.name c <> ""
  /\ available (chain (first (Person.emailAddresses item)) Person.value)
     = Some (Contact.email c).
Proof.
  unfold personToContact, orElse, orDefault, truthy, available.
  destruct (chain (first (Person.emailAddresses item)) Person.value) as [e|];
    [|discriminate].
  destruct (String.eqb e "") eqn:Ee; simpl; [discriminate|].
  apply String.eqb_neq in Ee.
  intros H. injection H as <-. simpl.
  split; [exact Ee|]. split; [|split; [|reflexivity]].
  - destruct (Person.resourceName item) as [r|]; [|exact Ee].
    destruct (String.eqb r "") eqn:Er; [exact Ee | apply String.eqb_neq, Er].
  - destruct (chain (first (Person.names item)) Person.displayName) as [n|]; simpl.
    + destruct (String.eqb n "") eqn:En; simpl.
      * apply String.eqb_neq in Ee. rewrite Ee. apply String.eqb_neq, Ee.
      * rewrite En. apply String.eqb_neq, En.
    + apply String.eqb_neq in Ee. rewrite Ee. apply String.eqb_neq, Ee.
Qed.

Lemma personToContact_dropped item :
  personToContact item = None ->
  available (chain (first (Person.emailAddresses item)) Person.value) = None.
Proof.
  unfold personToContact, truthy, available.
  destruct (chain (first (Person.emailAddresses item)) Person.value) as [e|];
    [|reflexivity].
  destruct (String.eqb e ""); simpl; [reflexivity | discriminate].
Qed.

(** X4. [fetchPeople] keeps the order of the response and drops exactly the
    persons whose first email address is missing or empty: the emails of the
    contacts it builds are the non-empty first addresses of the persons, in
    order. *)
Theorem people_in_order (list : list Person.t) :
  map Contact.email (filterNotNull (map personToContact list)) =
  filterNotNull
    (map (fun item => available (chain (first (Person.emailAddresses item)) Person.value))
         list).
Proof.
  induction list as [|item list IH]; simpl; [reflexivity|].
  destruct (personToContact item) as [c|] eqn:Hc.
  - destruct (personToContact_filled _ _ Hc) as (_ & _ & _ & Ha).
    rewrite Ha. simpl. rewrite IH. reflexivity.
  - rewrite (personToContact_dropped _ Hc). exact IH.
Qed.

Lemma peopleOf_filled isOther o c :
  In c (peopleOf isOther o) ->
  Contact.email c <> "" /\ Contact.id c <> "" /\ Contact.name c <> "".
Proof.
  unfold peopleOf. destruct o as [res|e]; [|intros []].
  destruct (ok res); [|intros []].
  destruct (json res) as [data|e]; [|intros []].
  destruct (if isOther then Body.otherContacts data else Body.connections data)
    as [l|]; [|intros []].
  intros Hin. apply In_filterNotNull, in_map_iff in Hin.
  destruct Hin as [item [Hitem _]].
  destruct (personToContact_filled _ _ Hitem) as (He & Hi & Hn & _). auto.
Qed.

Lemma attendeesOf_filled o c :
  In c (attendeesOf o) -> Contact.email c <> "" /\ Contact.id c <> "".
Proof.
  unfold attendeesOf. destruct o as [res|e]; [|intros []].
  destruct (ok res); [|intros []].
  destruct (json res) as [data|e]; [|intros []].
  destruct (Body.items data) as [items|]; [|intros []].
  intros Hin.
  pose proof (entry_unique _ (attendeeContacts_NoDup items) c Hin) as He.
  rewrite attendeeContacts_entry in He.
  apply entry_Some in He. destruct He as [Hc _].
  apply In_filterNotNull, in_map_iff in Hc. destruct Hc as [att [Hatt _]].
  apply attendeeToContact_Some in Hatt.
  destruct Hatt as (_ & Hne & _ & _ & Hid & _). split; congruence.
Qed.

(** X5. Whatever the three requests answer, [fetchAllContacts] resolves, and
    every contact of its list has a non-empty email and a non-empty id. *)
Theorem fetched_contacts_filled {W : Type} (handle : Handler W) token w :
  exists l,
    settled (run handle (fetchAllContacts token) w) = Resolved l
    /\ forall c, In c l -> Contact.email c <> "" /\ Contact.id c <> "".
Proof.
  destruct (handle _ (Fetch Connections token) w) as [o1 w1] eqn:H1.
  destruct (handle _ (Fetch OtherContacts token) w1) as [o2 w2] eqn:H2.
  destruct (handle _ DateNow w2) as [now w3] eqn:Hnow.
  destruct (handle _ (Fetch (CalendarEvents (now - thirtyDays)) token) w3)
    as [o3 w4] eqn:H3.
  rewrite (run_fetchAllContacts handle _ _ _ _ _ _ _ _ _ _ H1 H2 Hnow H3).
  eexists. split; [reflexivity|].
  intros c Hin.
  pose proof (entry_unique _ (merge_NoDup _ _ _) c Hin) as He.
  rewrite merge_entry in He.
  destruct (lastEntry (Contact.email c) (peopleOf false o1)) as [c1|] eqn:E1.
  - injection He as <-. apply lastEntry_In in E1.
    destruct (peopleOf_filled _ _ _ (proj1 E1)) as (? & ? & _). auto.
  - destruct (entry (Contact.email c) (peopleOf true o2)) as [c2|] eqn:E2.
    + injection He as <-. apply entry_Some in E2.
      destruct (peopleOf_filled _ _ _ (proj1 E2)) as (? & ? & _). auto.
    + apply entry_Some in He. exact (attendeesOf_filled _ _ (proj1 He)).
Qed.

(** X6. The recent-attendees list holds each email once, and the contact of
    an email is the one built from the first attendee, in the order of the
    events and of their attendee lists, that carries it with neither flag:
    a later display name for the same email does not replace it. *)
Theorem attendees_first_wins (items : list CalEvent.t) :
  NoDup (map Contact.email (attendeeContacts items))
  /\ forall e,
       entry e (attendeeContacts items) =
       entry e (filterNotNull (map attendeeToContact (allAttendees items))).
Proof.
  split; [apply attendeeContacts_NoDup | intros e; apply attendeeContacts_entry].
Qed.

(** ** The local part of an email *)

Lemma beforeAt_no_at s : occurs "@" (beforeAt s) = false.
Proof.
  induction s as [|c s IH]; simpl; [reflexivity|].
  destruct (Ascii.eqb c "@") eqn:E; simpl; [reflexivity|].
  rewrite E. exact IH.
Qed.

Lemma beforeAt_split local rest :
  occurs "@" local = false -> beforeAt (local ++ String "@" rest)%string = local.
Proof.
  induction local as [|c local IH]; simpl; [reflexivity|].
  destruct (Ascii.eqb c "@"); simpl; [discriminate|].
  intros H. rewrite (IH H). reflexivity.
Qed.

Lemma beforeAt_whole s : occurs "@" s = false -> beforeAt s = s.
Proof.
  induction s as [|c s IH]; simpl; [reflexivity|].
  destruct (Ascii.eqb c "@"); simpl; [discriminate|].
  intros H. rewrite (IH H). reflexivity.
Qed.

(** X7. The name given to an attendee without display name: [beforeAt] never
    contains an ['@']; on [local@rest] with no ['@'] in [local] it is
    [local]; on a string without ['@'] it is the whole string. *)
Theorem beforeAt_local_part (s : string) :
  occurs "@" (beforeAt s) = false
  /\ (forall local rest : string,
         s = (local ++ String "@" rest)%string -> occurs "@" local = false ->
         beforeAt s = local)
  /\ (occurs "@" s = false -> beforeAt s = s).
Proof.
  split; [apply beforeAt_no_at|]. split.
  - intros local rest -> H. apply beforeAt_split, H.
  - apply beforeAt_whole.
Qed.

Lemma beforeAt_local_part_witness :
  beforeAt "bob.smith@mail.x.com" = "bob.smith" /\ beforeAt "room 4" = "room 4".
Proof.
  split.
  - apply (proj1 (proj2 (beforeAt_local_part "bob.smith@mail.x.com"))
             "bob.smith" "mail.x.com"); reflexivity.
  - apply (proj2 (proj2 (beforeAt_local_part "room 4"))). reflexivity.
Defined.

(** ** More on the refresh: what is called, and what a failed write costs *)

Section Refresh.
Context {W : Type} (handle : Handler W).

(** The refresh once the credential has arrived, whatever the write does. *)
Lemma run_refreshContacts_written token w w0 o1 w1 o2 w2 now w3 o3 w4 stamp w5 written w6 :
  handle _ (GetAuthToken false) w = (Resolved token, w0) ->
  handle _ (Fetch Connections token) w0 = (o1, w1) ->
  handle _ (Fetch OtherContacts token) w1 = (o2, w2) ->
  handle _ DateNow w2 = (now, w3) ->
  handle _ (Fetch (CalendarEvents (now - thirtyDays)) token) w3 = (o3, w4) ->
  handle _ DateNow w4 = (stamp, w5) ->
  handle _ (StorageSet CACHE_KEY
              {| data := mergeContacts (peopleOf false o1) (peopleOf true o2) (attendeesOf o3);
                 timestamp := stamp |}) w5 = (written, w6) ->
  run handle refreshContacts w =
  mkRun (Resolved match written with
                  | Resolved _ =>
                      mergeContacts (peopleOf false o1) (peopleOf true o2) (attendeesOf o3)
                  | Rejected _ => []
                  end)
        w6
        [Called (GetAuthToken false);
         Called (Fetch Connections token); Called (Fetch OtherContacts token);
         Called DateNow; Called (Fetch (CalendarEvents (now - thirtyDays)) token);
         Called DateNow;
         Called (StorageSet CACHE_KEY
                   {| data := mergeContacts (peopleOf false o1) (peopleOf true o2)
                                            (attendeesOf o3);
                      timestamp := stamp |})].
Proof.
  intros Hauth H1 H2 Hnow H3 Hstamp Hset. unfold refreshContacts, await, call.
  rewrite run_tryCatch. cbn [bind]. rewrite (run_Vis _ _ _ _ _ _ Hauth).
  cbn [settle bind]. rewrite run_bind.
  rewrite (run_fetchAllContacts _ _ _ _ _ _ _ _ _ _ _ H1 H2 Hnow H3).
  unfold andThen; cbn [settled final trace bind].
  rewrite (run_Vis _ _ _ _ _ _ Hstamp). cbn [bind].
  rewrite (run_Vis _ _ _ _ _ _ Hset).
  destruct written as [[]|e]; reflexivity.
Qed.

End Refresh.

(** X8. When the credential arrives and the three requests are answered but
    the cache write is rejected, a forced [getContacts] returns the empty
    list, whatever the sources delivered. *)
Theorem write_failure_loses_contacts {W : Type} (handle : Handler W)
    token w w0 o1 w1 o2 w2 now w3 o3 w4 stamp w5 e w6 :
  handle _ (GetAuthToken false) w = (Resolved token, w0) ->
  handle _ (Fetch Connections token) w0 = (o1, w1) ->
  handle _ (Fetch OtherContacts token) w1 = (o2, w2) ->
  handle _ DateNow w2 = (now, w3) ->
  handle _ (Fetch (CalendarEvents (now - thirtyDays)) token) w3 = (o3, w4) ->
  handle _ DateNow w4 = (stamp, w5) ->
  handle _ (StorageSet CACHE_KEY
              {| data := mergeContacts (peopleOf false o1) (peopleOf true o2) (attendeesOf o3);
                 timestamp := stamp |}) w5 = (Rejected e, w6) ->
  settled (run handle (getContacts true) w) = Resolved [].
Proof.
  intros Hauth H1 H2 Hnow H3 Hstamp Hset.
  rewrite run_getContacts_forced.
  rewrite (run_refreshContacts_written handle _ _ _ _ _ _ _ _ _ _ _ _ _ _ _
             Hauth H1 H2 Hnow H3 Hstamp Hset).
  reflexivity.
Qed.

(** X9. Once the credential has arrived, a forced [getContacts] sends its
    three requests, in the order connections, other contacts, calendar,
    each with that credential, whatever any of them is answered and
    whether or not the cache write succeeds. *)
Theorem three_requests_always {W : Type} (handle : Handler W) token w w0 :
  handle _ (GetAuthToken false) w = (Resolved token, w0) ->
  exists timeMin,
    filter isFetch (trace (run handle (getContacts true) w)) =
    [Called (Fetch Connections token); Called (Fetch OtherContacts token);
     Called (Fetch (CalendarEvents timeMin) token)].
Proof.
  intros Hauth.
  destruct (handle _ (Fetch Connections token) w0) as [o1 w1] eqn:H1.
  destruct (handle _ (Fetch OtherContacts token) w1) as [o2 w2] eqn:H2.
  destruct (handle _ DateNow w2) as [now w3] eqn:Hnow.
  destruct (handle _ (Fetch (CalendarEvents (now - thirtyDays)) token) w3)
    as [o3 w4] eqn:H3.
  destruct (handle _ DateNow w4) as [stamp w5] eqn:Hstamp.
  destruct (handle _ (StorageSet CACHE_KEY
              {| data := mergeContacts (peopleOf false o1) (peopleOf true o2)
                                       (attendeesOf o3);
                 timestamp := stamp |}) w5) as [written w6] eqn:Hset.
  exists (now - thirtyDays)%Z.
  rewrite run_getContacts_forced.
  rewrite (run_refreshContacts_written handle _ _ _ _ _ _ _ _ _ _ _ _ _ _ _
             Hauth H1 H2 Hnow H3 Hstamp Hset).
  reflexivity.
Qed.

(** ** Calls a program can make *)

Lemma Calls_bind {A B : Type} (P : Event -> bool) (p : Prog A) (f : A -> Prog B) :
  Calls P p -> (forall a, Calls P (f a)) -> Calls P (bind p f).
Proof.
  intros Hp Hf. induction Hp as [a|e|R c k Hc _ IH]; simpl.
  - apply Hf.
  - constructor.
  - constructor; assumption.
Qed.

Lemma Calls_tryCatch {A : Type} (P : Event -> bool) (p : Prog A) (h : Error -> Prog A) :
  Calls P p -> (forall e, Calls P (h e)) -> Calls P (tryCatch p h).
Proof.
  intros Hp Hh. induction Hp as [a|e|R c k Hc _ IH]; simpl.
  - constructor.
  - apply Hh.
  - constructor; assumption.
Qed.

Lemma Calls_settle {A : Type} (P : Event -> bool) (o : Outcome A) : Calls P (settle o).
Proof. destruct o; constructor. Qed.

Lemma Calls_await {A : Type} (P : Event -> bool) (c : Call (Outcome A)) :
  P (Called c) = true -> Calls P (await c).
Proof. intros H. constructor; [exact H | intros r; apply Calls_settle]. Qed.

Lemma Calls_mapM {A B : Type} (P : Event -> bool) (f : A -> Prog B) (l : list A) :
  (forall a, Calls P (f a)) -> Calls P (mapM f l).
Proof.
  intros Hf. induction l as [|a l IH]; simpl.
  - constructor.
  - apply Calls_bind; [apply Hf|]. intros b.
    apply Calls_bind; [exact IH|]. intros bs. constructor.
Qed.

Lemma Calls_run {A W : Type} (P : Event -> bool) (handle : Handler W) (p : Prog A) :
  Calls P p -> forall w, forallb P (trace (run handle p w)) = true.
Proof.
  induction 1 as [a|e|R c k Hc _ IH]; intros w; simpl; try reflexivity.
  destruct (handle R c w) as [r w']. simpl. rewrite Hc. apply IH.
Qed.

Lemma Calls_fetchPeople (P : Event -> bool) url token isOther :
  P (Called (Fetch url token)) = true -> Calls P (fetchPeople url token isOther).
Proof.
  intros H. unfold fetchPeople.
  apply Calls_tryCatch; [|intros _; constructor].
  apply Calls_bind; [apply Calls_await, H|]. intros res.
  destruct (negb (ok res)); [constructor|].
  apply Calls_bind; [apply Calls_settle|]. intros data.
  destruct (if isOther then Body.otherContacts data else Body.connections data);
    constructor.
Qed.

Lemma Calls_fetchRecentAttendees (P : Event -> bool) token :
  P (Called DateNow) = true ->
  (forall timeMin, P (Called (Fetch (CalendarEvents timeMin) token)) = true) ->
  Calls P (fetchRecentAttendees token).
Proof.
  intros Hnow H. unfold fetchRecentAttendees.
  apply Calls_tryCatch; [|intros _; constructor].
  apply Calls_bind; [constructor; [exact Hnow | intros r; constructor]|]. intros now.
  apply Calls_bind; [apply Calls_await, H|]. intros res.
  destruct (negb (ok res)); [constructor|].
  apply Calls_bind; [apply Calls_settle|]. intros data.
  destruct (Body.items data); constructor.
Qed.

Lemma Calls_refreshContacts (P : Event -> bool) :
  P (Called (GetAuthToken false)) = true ->
  P (Called DateNow) = true ->
  (forall url token, P (Called (Fetch url token)) = true) ->
  (forall key v, P (Called (StorageSet key v)) = true) ->
  Calls P refreshContacts.
Proof.
  intros Hauth Hnow Hfetch Hset. unfold refreshContacts.
  apply Calls_tryCatch; [|intros _; constructor].
  apply Calls_bind; [apply Calls_await, Hauth|]. intros token.
  apply Calls_bind.
  - unfold fetchAllContacts, fetchConnections, fetchOtherContacts.
    apply Calls_bind; [apply Calls_fetchPeople, Hfetch|]. intros l1.
    apply Calls_bind; [apply Calls_fetchPeople, Hfetch|]. intros l2.
    apply Calls_bind; [apply Calls_fetchRecentAttendees; auto|]. intros l3.
    constructor.
  - intros contacts.
    apply Calls_bind; [constructor; [exact Hnow | intros r; constructor]|]. intros now.
    apply Calls_bind; [apply Calls_await, Hset|]. intros _. constructor.
Qed.

Lemma Calls_getContacts (P : Event -> bool) forceRefresh :
  P (Called (StorageGet CACHE_KEY)) = true ->
  P (Called (GetAuthToken false)) = true ->
  P (Called DateNow) = true ->
  (forall url token, P (Called (Fetch url token)) = true) ->
  (forall key v, P (Called (StorageSet key v)) = true) ->
  Calls P (getContacts forceRefresh).
Proof.
  intros Hget Hauth Hnow Hfetch Hset.
  pose proof (Calls_refreshContacts P Hauth Hnow Hfetch Hset) as Hrefresh.
  unfold getContacts. destruct forceRefresh; simpl; [exact Hrefresh|].
  constructor; [exact Hget|]. intros [[cachedData|]|e]; simpl.
  - constructor; [exact Hnow|]. intros now. simpl.
    destruct (now - timestamp cachedData <? CACHE_DURATION)%Z;
      [constructor | exact Hrefresh].
  - exact Hrefresh.
  - constructor.
Qed.

Lemma Calls_searchContacts (P : Event -> bool) query :
  P (Called (GetAuthToken false)) = true ->
  (forall url token, P (Called (Fetch url token)) = true) ->
  Calls P (searchContacts query).
Proof.
  intros Hauth Hfetch. unfold searchContacts.
  destruct (negb (truthy (Some query)) || (String.length query <? 2)%nat);
    [constructor|].
  apply Calls_tryCatch; [|intros _; constructor].
  apply Calls_bind; [apply Calls_await, Hauth|]. intros token.
  apply Calls_bind; [apply Calls_await, Hfetch|]. intros res.
  destruct (negb (ok res)); [constructor|].
  apply Calls_bind; [apply Calls_settle|]. intros data.
  destruct (Body.results data) as [results|]; [|constructor].
  apply Calls_bind; [|intros mapped; constructor].
  apply Calls_mapM. intros result.
  destruct (SearchResult.person result); constructor.
Qed.

(** X10. Neither operation can open a sign-in prompt: against any outside,
    whatever it answers, every credential request [getContacts] and
    [searchContacts] make is the non-interactive one. *)
Theorem never_interactive {W : Type} (handle : Handler W) (w : W) :
  (forall forceRefresh,
      forallb isSilent (trace (run handle (getContacts forceRefresh) w)) = true)
  /\ (forall query,
         forallb isSilent (trace (run handle (searchContacts query) w)) = true).
Proof.
  split.
  - intros forceRefresh. apply Calls_run, Calls_getContacts; reflexivity.
  - intros query. apply Calls_run, Calls_searchContacts; reflexivity.
Qed.

(** X11. A forced [getContacts] never reads the cache, and [searchContacts]
    neither reads nor writes it, whatever the outside answers. *)
Theorem cache_untouched_by {W : Type} (handle : Handler W) (w : W) :
  forallb (fun ev => negb (isStorageGet ev))
          (trace (run handle (getContacts true) w)) = true
  /\ (forall query,
         forallb (fun ev => negb (isStorageGet ev) && negb (isStorageSet ev))
                 (trace (run handle (searchContacts query) w)) = true).
Proof.
  split.
  - apply Calls_run. apply Calls_refreshContacts; reflexivity.
  - intros query. apply Calls_run, Calls_searchContacts; reflexivity.
Qed.

Lemma write_failure_loses_contacts_witness :
  settled (run Chrome.handle (getContacts true) quotaExceeded) = Resolved [].
Proof.
  apply (write_failure_loses_contacts Chrome.handle "ya29.a0" quotaExceeded
           _ _ _ _ _ _ _ _ _ _ _ _ _
           eq_refl eq_refl eq_refl eq_refl eq_refl eq_refl eq_refl).
Defined.

Lemma three_requests_always_witness :
  exists timeMin,
    filter isFetch
           (trace (run Chrome.handle (getContacts true)
                       (browser 1700000000000 None allDown))) =
    [Called (Fetch Connections "ya29.a0"); Called (Fetch OtherContacts "ya29.a0");
     Called (Fetch (CalendarEvents timeMin) "ya29.a0")].
Proof.
  apply (three_requests_always Chrome.handle "ya29.a0"
           (browser 1700000000000 None allDown) _ eq_refl).
Defined.

(** ** More on the search path *)

Lemma mapM_allPersons (results : list SearchResult.t) :
  mapM (fun result : SearchResult.t =>
          match SearchResult.person result with
          | Some item => Ret (personToContact item)
          | None => Throw TypeError
          end) results
  = match allPersons results with
    | Some items => Ret (map personToContact items)
    | None => Throw TypeError
    end.
Proof.
  induction results as [|result results IH]; simpl; [reflexivity|].
  destruct (SearchResult.person result) as [item|]; simpl; [|reflexivity].
  rewrite IH. destruct (allPersons results); reflexivity.
Qed.

Lemma allPersons_missing results result :
  In result results -> SearchResult.person result = None -> allPersons results = None.
Proof.
  induction results as [|r results IH]; simpl; [intros []|].
  intros [->|Hin] Hnone.
  - rewrite Hnone. reflexivity.
  - rewrite (IH Hin Hnone). destruct (SearchResult.person r); reflexivity.
Qed.

Lemma search_guard_open query :
  (2 <= String.length query)%nat ->
  negb (truthy (Some query)) || (String.length query <? 2)%nat = false.
Proof.
  intros Hlen. apply orb_false_iff. split.
  - destruct query; [simpl in Hlen; lia | reflexivity].
  - apply Nat.ltb_ge. exact Hlen.
Qed.

Section Search.
Context {W : Type} (handle : Handler W).

Lemma run_searchContacts_answered query token w w0 o w1 :
  (2 <= String.length query)%nat ->
  handle _ (GetAuthToken false) w = (Resolved token, w0) ->
  handle _ (Fetch (OtherContactsSearch query) token) w0 = (o, w1) ->
  run handle (searchContacts query) w =
  mkRun (Resolved (searchOf o)) w1
        [Called (GetAuthToken false); Called (Fetch (OtherContactsSearch query) token)].
Proof.
  intros Hlen Hauth Hfetch. unfold searchContacts, await.
  rewrite (search_guard_open _ Hlen), run_tryCatch. cbn [bind].
  rewrite (run_Vis _ _ _ _ _ _ Hauth). cbn [settle bind].
  rewrite (run_Vis _ _ _ _ _ _ Hfetch).
  destruct o as [res|e]; cbn [settle bind searchOf]; [|reflexivity].
  destruct (ok res); cbn [negb]; [|reflexivity].
  destruct (json res) as [data|e]; cbn [settle bind]; [|reflexivity].
  destruct (Body.results data) as [results|]; [|reflexivity].
  rewrite mapM_allPersons.
  destruct (allPersons results); reflexivity.
Qed.

Lemma run_searchContacts_no_token query w e w0 :
  (2 <= String.length query)%nat ->
  handle _ (GetAuthToken false) w = (Rejected e, w0) ->
  run handle (searchContacts query) w =
  mkRun (Resolved []) w0 [Called (GetAuthToken false)].
Proof.
  intros Hlen Hauth. unfold searchContacts, await.
  rewrite (search_guard_open _ Hlen), run_tryCatch. cbn [bind].
  rewrite (run_Vis _ _ _ _ _ _ Hauth). reflexivity.
Qed.

End Search.

(** X12. One malformed entry voids a search: when some result of the answer
    has no [person], [searchContacts] returns the empty list, whatever the
    other results hold. *)
Theorem search_void_on_missing_person {W : Type} (handle : Handler W)
    query token w w0 res w1 data results result :
  (2 <= String.length query)%nat ->
  handle _ (GetAuthToken false) w = (Resolved token, w0) ->
  handle _ (Fetch (OtherContactsSearch query) token) w0 = (Resolved res, w1) ->
  ok res = true -> json res = Resolved data ->
  Body.results data = Some results ->
  In result results -> SearchResult.person result = None ->
  settled (run handle (searchContacts query) w) = Resolved [].
Proof.
  intros Hlen Hauth Hfetch Hok Hjson Hres Hin Hnone.
  rewrite (run_searchContacts_answered handle _ _ _ _ _ _ Hlen Hauth Hfetch).
  cbn [settled searchOf]. rewrite Hok, Hjson, Hres.
  rewrite (allPersons_missing _ _ Hin Hnone). reflexivity.
Qed.

Lemma search_void_on_missing_person_witness :
  settled (run Chrome.handle (searchContacts "al")
               (browser 1700000000000 None brokenResult))
  = Resolved [].
Proof.
  eapply (search_void_on_missing_person Chrome.handle "al" "ya29.a0"
            (browser 1700000000000 None brokenResult) _ _ _ _ _
            {| SearchResult.person := None |}).
  - simpl. lia.
  - reflexivity.
  - reflexivity.
  - reflexivity.
  - reflexivity.
  - reflexivity.
  - right. left. reflexivity.
  - reflexivity.
Defined.



Lemma searchOf_filled o c :
  In c (searchOf o) ->
  Contact.email c <> "" /\ Contact.id c <> "" /\ Contact.name c <> "".
Proof.
  unfold searchOf. destruct o as [res|e]; [|intros []].
  destruct (ok res); [|intros []].
  destruct (json res) as [data|e]; [|intros []].
  destruct (Body.results data) as [results|]; [|intros []].
  destruct (allPersons results) as [items|]; [|intros []].
  intros Hin. apply In_filterNotNull, in_map_iff in Hin.
  destruct Hin as [item [Hitem _]].
  destruct (personToContact_filled _ _ Hitem) as (He & Hi & Hn & _). auto.
Qed.

(** X14. Whatever the outside answers, [searchContacts] resolves, and every
    contact it returns has a non-empty email, id and name. *)
Theorem search_results_filled {W : Type} (handle : Handler W) query w :
  exists l,
    settled (run handle (searchContacts query) w) = Resolved l
    /\ forall c, In c l ->
         Contact.email c <> "" /\ Contact.id c <> "" /\ Contact.name c <> "".
Proof.
  destruct (Nat.lt_ge_cases (String.length query) 2) as [Hshort|Hlen].
  - rewrite (searchContacts_short _ Hshort). exists []. split; [reflexivity|].
    intros c [].
  - destruct (handle _ (GetAuthToken false) w) as [[token|e] w0] eqn:Hauth.
    + destruct (handle _ (Fetch (OtherContactsSearch query) token) w0)
        as [o w1] eqn:Hf.
      rewrite (run_searchContacts_answered handle _ _ _ _ _ _ Hlen Hauth Hf).
      exists (searchOf o). split; [reflexivity | apply searchOf_filled].
    + rewrite (run_searchContacts_no_token handle _ _ _ _ Hlen Hauth).
      exists []. split; [reflexivity | intros c []].
Qed.

(** ** More on the cache *)



(** X16. Without a silent credential the network path of [getContacts]
    (refresh forced, or the cache read and found absent or aged 24 hours or
    more) returns the empty list, sends no request and leaves the browser's
    storage as it was: a stale cache is neither served nor replaced. *)
Theorem signed_out_keeps_cache (w : Chrome.World) (forceRefresh : bool) (e : Error) :
  forceRefresh = true
  \/ (Chrome.readFault w = None
      /\ (Chrome.stored w CACHE_KEY = None
          \/ exists cachedData,
               Chrome.stored w CACHE_KEY = Some cachedData
               /\ (24 * 60 * 60 * 1000
                   <= Chrome.clock w + Chrome.latency w - timestamp cachedData)%Z)) ->
  Chrome.identity w = Rejected e ->
  settled (run Chrome.handle (getContacts forceRefresh) w) = Resolved []
  /\ filter isFetch (trace (run Chrome.handle (getContacts forceRefresh) w)) = []
  /\ forall key,
       Chrome.stored (final (run Chrome.handle (getContacts forceRefresh) w)) key
       = Chrome.stored w key.
Proof.
  intros Hpath Hid.
  assert (Hrefresh : forall u,
             Chrome.identity u = Rejected e ->
             run Chrome.handle refreshContacts u =
             mkRun (Resolved []) (Chrome.elapse u) [Called (GetAuthToken false)]).
  { intros u Hu. apply (run_refreshContacts_no_token Chrome.handle u e).
    simpl. rewrite Hu. reflexivity. }
  destruct forceRefresh.
  - rewrite run_getContacts_forced, (Hrefresh w Hid).
    repeat split; reflexivity.
  - destruct Hpath as [Hforced|[Hread [Habsent|[c [Hc Hage]]]]]; [discriminate| |].
    + rewrite (run_getContacts_absent Chrome.handle w (Chrome.elapse w));
        [|simpl; rewrite Hread, Habsent; reflexivity].
      rewrite (Hrefresh (Chrome.elapse w) Hid). repeat split; reflexivity.
    + rewrite (run_getContacts_stale Chrome.handle w c (Chrome.elapse w)
                 (Chrome.clock w + Chrome.latency w)%Z (Chrome.elapse w));
        [|simpl; rewrite Hread, Hc; reflexivity | reflexivity | exact Hage].
      rewrite (Hrefresh (Chrome.elapse w) Hid). repeat split; reflexivity.
Qed.

Lemma signed_out_keeps_cache_witness :
  settled (run Chrome.handle (getContacts false) signedOut) = Resolved []
  /\ Chrome.stored (final (run Chrome.handle (getContacts false) signedOut)) CACHE_KEY
     = Some {| data := [alice]; timestamp := 1700000000000 - 25 * hour |}.
Proof.
  destruct (signed_out_keeps_cache signedOut false
              (Failure "OAuth2 not granted or revoked."))
    as (Hsettled & _ & Hstored).
  - right. split; [reflexivity|]. right.
    exists {| data := [alice]; timestamp := 1700000000000 - 25 * hour |}.
    split; [reflexivity | vm_compute; discriminate].
  - reflexivity.
  - split; [exact Hsettled|]. rewrite Hstored. reflexivity.
Defined.

(** ** More on the caller's merge *)

Lemma combined_pushResult prev results :
  combined prev results = fold_left pushResult results prev.
Proof. reflexivity. Qed.

Lemma known_In l e : known l e = true <-> In e (map Contact.email l).
Proof.
  unfold known. rewrite existsb_exists, in_map_iff. split.
  - intros [c [Hin He]]. apply String.eqb_eq in He. exists c. auto.
  - intros [c [He Hin]]. exists c. split; [exact Hin | apply String.eqb_eq, He].
Qed.

Lemma pushResult_NoDup held r :
  NoDup (map Contact.email held) -> NoDup (map Contact.email (pushResult held r)).
Proof.
  intros Hnd. unfold pushResult.
  destruct (known held (Contact.email r)) eqn:Hk; simpl; [exact Hnd|].
  rewrite map_app. simpl. apply NoDup_app; [exact Hnd | repeat constructor; intros []|].
  intros x Hx [<-|[]]. apply known_In in Hx. congruence.
Qed.

Lemma pushResult_keeps held r e :
  known held e = true -> known (pushResult held r) e = true.
Proof.
  intros Hk. unfold pushResult.
  destruct (negb (known held (Contact.email r))); [|exact Hk].
  rewrite known_app, Hk. reflexivity.
Qed.

Lemma pushResult_knows held r : known (pushResult held r) (Contact.email r) = true.
Proof.
  unfold pushResult. destruct (known held (Contact.email r)) eqn:Hk; simpl.
  - exact Hk.
  - rewrite known_app, known_single, String.eqb_refl. apply orb_true_r.
Qed.

Lemma fold_pushResult_keeps results : forall held e,
  known held e = true -> known (fold_left pushResult results held) e = true.
Proof.
  induction results as [|r rs IH]; simpl; intros held e Hk; [exact Hk|].
  apply IH, pushResult_keeps, Hk.
Qed.

Lemma fold_pushResult_knows results : forall held r,
  In r results -> known (fold_left pushResult results held) (Contact.email r) = true.
Proof.
  induction results as [|r0 rs IH]; simpl; intros held r Hin; [contradiction|].
  destruct Hin as [->|Hin].
  - apply fold_pushResult_keeps, pushResult_knows.
  - apply IH, Hin.
Qed.

Lemma fold_pushResult_known results : forall held,
  (forall r, In r results -> known held (Contact.email r) = true) ->
  fold_left pushResult results held = held.
Proof.
  induction results as [|r rs IH]; simpl; intros held Hall; [reflexivity|].
  unfold pushResult at 2. rewrite (Hall r (or_introl eq_refl)). simpl.
  apply IH. intros x Hx. apply Hall. right. exact Hx.
Qed.

Lemma fold_pushResult_NoDup results : forall held,
  NoDup (map Contact.email held) ->
  NoDup (map Contact.email (fold_left pushResult results held)).
Proof.
  induction results as [|r rs IH]; simpl; intros held Hnd; [exact Hnd|].
  apply IH, pushResult_NoDup, Hnd.
Qed.

(** X17. The caller's merge keeps the held list free of repeated emails:
    when no two held contacts share an email, no two do after the search
    results were merged in, whatever the results are. *)
Theorem search_merge_keeps_unique (prev results : list Contact.t) :
  NoDup (map Contact.email prev) ->
  NoDup (map Contact.email (afterSearch prev results)).
Proof.
  intros Hnd. rewrite afterSearch_combined, combined_pushResult.
  apply fold_pushResult_NoDup, Hnd.
Qed.

Lemma search_merge_keeps_unique_witness :
  NoDup (map Contact.email (afterSearch [ann; bob] [annie; carol; carol])).
Proof.
  apply (search_merge_keeps_unique [ann; bob] [annie; carol; carol]).
  simpl. repeat constructor; simpl; intuition discriminate.
Defined.

(** X18. After the merge every search result's email is held, and merging
    the same results again changes nothing: a repeated search adds no
    entry. *)
Theorem search_merge_idempotent (prev results : list Contact.t) :
  (forall r, In r results ->
             In (Contact.email r) (map Contact.email (afterSearch prev results)))
  /\ afterSearch (afterSearch prev results) results = afterSearch prev results.
Proof.
  rewrite !afterSearch_combined, !combined_pushResult. split.
  - intros r Hin. apply known_In, fold_pushResult_knows, Hin.
  - apply fold_pushResult_known. intros r Hin.
    apply fold_pushResult_knows, Hin.
Qed.

(** ** Strings: append, slices, last character *)

Lemma append_nil_r (s : string) : (s ++ "")%string = s.
Proof. induction s as [|c s IH]; simpl; [reflexivity | rewrite IH; reflexivity]. Qed.

Lemma append_assoc (a b c : string) : ((a ++ b) ++ c)%string = (a ++ (b ++ c))%string.
Proof. induction a as [|x a IH]; simpl; [reflexivity | rewrite IH; reflexivity]. Qed.

Lemma length_append (a b : string) :
  String.length (a ++ b)%string = (String.length a + String.length b)%nat.
Proof. induction a as [|x a IH]; simpl; [reflexivity | rewrite IH; reflexivity]. Qed.

Lemma slice_split n : forall s, (sliceTo n s ++ sliceFrom n s)%string = s.
Proof.
  induction n as [|n IH]; intros [|c s]; simpl; try reflexivity.
  rewrite IH. reflexivity.
Qed.

Lemma sliceTo_app (a b : string) : sliceTo (String.length a) (a ++ b)%string = a.
Proof.
  induction a as [|x a IH]; simpl.
  - destruct b; reflexivity.
  - rewrite IH. reflexivity.
Qed.

Lemma sliceFrom_app (a b : string) : sliceFrom (String.length a) (a ++ b)%string = b.
Proof.
  induction a as [|x a IH]; simpl.
  - destruct b; reflexivity.
  - exact IH.
Qed.

Lemma lastChar_app (a b : string) :
  lastChar (a ++ b)%string =
  match lastChar b with Some x => Some x | None => lastChar a end.
Proof.
  induction a as [|c a IH]; simpl.
  - destruct (lastChar b); reflexivity.
  - rewrite IH. destruct (lastChar b); reflexivity.
Qed.

Lemma allWord_lastChar q c : allWord q = true -> lastChar q = Some c -> isWordChar c = true.
Proof.
  induction q as [|x q IH]; simpl; [discriminate|].
  intros Hw. apply andb_prop in Hw. destruct Hw as [Hx Hq].
  destruct (lastChar q) as [y|] eqn:Hl.
  - intros H. apply IH; assumption.
  - intros H. injection H as <-. exact Hx.
Qed.

Lemma allWord_at (a b : string) : allWord (a ++ String "@" b)%string = false.
Proof.
  induction a as [|c a IH]; simpl; [reflexivity|].
  rewrite IH. apply andb_false_r.
Qed.

(** ** Mention detection *)

Lemma scanMention_sound s : forall behind index k q,
  scanMention behind index s = Some (k, q) ->
  exists pre : string,
    s = (pre ++ String "@" q)%string
    /\ k = (index + String.length pre)%nat
    /\ allWord q = true
    /\ match lastChar pre with
       | None => behind = true
       | Some c => isSpaceChar c = true
       end.
Proof.
  induction s as [|c s IH]; intros behind index k q H.
  - destruct behind; discriminate.
  - assert (Hrec : scanMention (isSpaceChar c) (S index) s = Some (k, q) ->
                   exists pre : string,
                     String c s = (pre ++ String "@" q)%string
                     /\ k = (index + String.length pre)%nat
                     /\ allWord q = true
                     /\ match lastChar pre with
                        | None => behind = true
                        | Some x => isSpaceChar x = true
                        end).
    { intros Hs. destruct (IH _ _ _ _ Hs) as (pre & -> & -> & Hq & Hb).
      exists (String c pre). simpl. repeat split; [lia | exact Hq |].
      destruct (lastChar pre); exact Hb. }
    simpl in H. destruct behind; [|exact (Hrec H)].
    destruct (Ascii.eqb c "@" && allWord s) eqn:E; [|exact (Hrec H)].
    injection H as <- <-. apply andb_prop in E. destruct E as [Ec Es].
    apply Ascii.eqb_eq in Ec. subst c.
    exists ""%string. simpl. repeat split; [lia | exact Es].
Qed.

Lemma scanMention_complete (pre : string) : forall behind index q,
  allWord q = true ->
  match lastChar pre with
  | None => behind = true
  | Some c => isSpaceChar c = true
  end ->
  scanMention behind index (pre ++ String "@" q)%string
  = Some ((index + String.length pre)%nat, q).
Proof.
  induction pre as [|c pre IH]; intros behind index q Hq Hb.
  - simpl in Hb. subst behind. simpl. rewrite Hq, Nat.add_0_r. reflexivity.
  - simpl. rewrite allWord_at, andb_false_r.
    assert (Hnone : (if behind then @None string else None) = None)
      by (destruct behind; reflexivity).
    rewrite Hnone. rewrite (IH (isSpaceChar c) (S index) q Hq).
    + f_equal. f_equal. lia.
    + simpl in Hb. destruct (lastChar pre); exact Hb.
Qed.

Lemma mention_unique (p1 : string) : forall (p2 q1 q2 : string),
  (p1 ++ String "@" q1)%string = (p2 ++ String "@" q2)%string ->
  allWord q1 = true -> allWord q2 = true -> p1 = p2 /\ q1 = q2.
Proof.
  induction p1 as [|c p1 IH]; intros [|c' p2] q1 q2 H H1 H2; simpl in H.
  - injection H as ->. split; reflexivity.
  - injection H as _ ->. rewrite allWord_at in H1. discriminate.
  - injection H as _ <-. rewrite allWord_at in H2. discriminate.
  - injection H as -> H. destruct (IH _ _ _ H H1 H2) as [-> ->].
    split; reflexivity.
Qed.

(** X19. The mention pattern matches exactly the texts that end in an at
    sign followed by word characters only, the at sign standing at the start
    of the text or after a white-space character; the match reports the
    index of that at sign and the word characters as the query. *)
Theorem mention_detection (text : string) (index : nat) (q : string) :
  mentionMatch text = Some (index, q)
  <-> exists pre : string,
        text = (pre ++ String "@" q)%string
        /\ index = String.length pre
        /\ allWord q = true
        /\ match lastChar pre with
           | None => True
           | Some c => isSpaceChar c = true
           end.
Proof.
  unfold mentionMatch. split.
  - intros H. destruct (scanMention_sound _ _ _ _ _ H) as (pre & Ht & Hk & Hq & Hb).
    exists pre. repeat split; try assumption.
    destruct (lastChar pre); [exact Hb | exact I].
  - intros (pre & -> & -> & Hq & Hb).
    rewrite (scanMention_complete pre true 0 q Hq); [reflexivity|].
    destruct (lastChar pre); [exact Hb | reflexivity].
Qed.

(** X20. What is not a mention: a text whose last character is neither an
    at sign nor a word character (a space after a name, say), and a text
    ending in an at sign and word characters when the at sign follows a
    character that is not white space (an email address being typed). *)
Theorem mention_not_detected (text : string) :
  (forall c, lastChar text = Some c -> c <> "@"%char -> isWordChar c = false ->
             mentionMatch text = None)
  /\ (forall (pre : string) c (q : string),
         text = (pre ++ String c (String "@" q))%string ->
         isSpaceChar c = false -> allWord q = true ->
         mentionMatch text = None).
Proof.
  unfold mentionMatch. split.
  - intros c Hlast Hat Hword.
    destruct (scanMention true 0 text) as [[k q]|] eqn:H; [|reflexivity].
    exfalso. destruct (scanMention_sound _ _ _ _ _ H) as (pre & -> & _ & Hq & _).
    rewrite lastChar_app in Hlast. simpl in Hlast.
    destruct (lastChar q) as [x|] eqn:Hl.
    + injection Hlast as ->. rewrite (allWord_lastChar _ _ Hq Hl) in Hword.
      discriminate.
    + injection Hlast as <-. apply Hat. reflexivity.
  - intros pre c q -> Hc Hq.
    destruct (scanMention true 0 (pre ++ String c (String "@" q))%string)
      as [[k q']|] eqn:H; [|reflexivity].
    exfalso. destruct (scanMention_sound _ _ _ _ _ H) as (pre' & Ht & _ & Hq' & Hb).
    change (pre ++ String c (String "@" q))%string
      with (pre ++ (String c "" ++ String "@" q))%string in Ht.
    rewrite <- append_assoc in Ht.
    destruct (mention_unique _ _ _ _ Ht Hq Hq') as [<- _].
    rewrite lastChar_app in Hb. simpl in Hb. congruence.
Qed.

Lemma mention_not_detected_witness :
  mentionMatch "lunch with @Ryan " = None
  /\ mentionMatch "mail ryan@example" = None.
Proof.
  split.
  - apply (proj1 (mention_not_detected "lunch with @Ryan ") " "%char);
      [reflexivity | discriminate | reflexivity].
  - apply (proj2 (mention_not_detected "mail ryan@example") "mail rya" "n"%char "example");
      reflexivity.
Defined.

Lemma mention_detection_witness :
  mentionMatch "Coffee with @Ry" = Some (12%nat, "Ry").
Proof.
  apply (proj2 (mention_detection "Coffee with @Ry" 12 "Ry")).
  exists "Coffee with "%string. repeat split; reflexivity.
Defined.

(** ** [handleInput] *)

(** X21. When the text before the cursor ends in a mention (an at sign at
    the start or after white space, then word characters [q]),
    [handleInput] activates the dropdown with query [q] at the index of the
    at sign, placed 220 pixels above the caret position it asked for just
    after the at sign; it schedules a search for [q] and raises the loading
    flag exactly when [q] has two characters or more, and otherwise leaves
    the loading flag as it was. *)
Theorem input_opens_mention (caret : nat -> Z * Z) (prev : InputState)
    (newVal : string) (newPos : nat) (pre q : string) :
  sliceTo newPos newVal = (pre ++ String "@" q)%string ->
  allWord q = true ->
  match lastChar pre with None => True | Some c => isSpaceChar c = true end ->
  handleInput caret prev newVal newPos =
  {| mentionState :=
       {| active := true; query := q; start := String.length pre;
          top := (fst (caret (String.length pre + 1)%nat) - 220)%Z;
          left := snd (caret (String.length pre + 1)%nat) |};
     isSearching := if (2 <=? String.length q)%nat then true else isSearching prev;
     scheduled := if (2 <=? String.length q)%nat then Some q else None |}.
Proof.
  intros Htext Hq Hb. unfold handleInput, mentionMatch. rewrite Htext.
  rewrite (scanMention_complete pre true 0 q Hq); [reflexivity|].
  destruct (lastChar pre); [exact Hb | reflexivity].
Qed.

Lemma input_opens_mention_witness :
  scheduled (handleInput (fun _ => (300, 40)%Z)
               {| mentionState := {| active := false; query := ""; start := 0;
                                     top := 0; left := 0 |};
                  isSearching := false; scheduled := None |}
               "Coffee with @Ry tomorrow" 15)
  = Some "Ry"%string.
Proof.
  rewrite (input_opens_mention _ _ "Coffee with @Ry tomorrow" 15 "Coffee with " "Ry");
    reflexivity.
Defined.

(** X22. A search [handleInput] schedules is never one the guard of
    [searchContacts] turns away: the scheduled query has two word characters
    or more, and [searchContacts] on it, against any outside, starts with
    the credential request. *)
Theorem scheduled_search_runs (caret : nat -> Z * Z) (prev : InputState)
    (newVal : string) (newPos : nat) (q : string) :
  scheduled (handleInput caret prev newVal newPos) = Some q ->
  (2 <= String.length q)%nat
  /\ allWord q = true
  /\ forall (W : Type) (handle : Handler W) (w : W),
       exists rest,
         trace (run handle (searchContacts q) w) = Called (GetAuthToken false) :: rest.
Proof.
  unfold handleInput, mentionMatch.
  destruct (scanMention true 0 (sliceTo newPos newVal)) as [[k q']|] eqn:H;
    cbn [scheduled]; [|discriminate].
  destruct (2 <=? String.length q')%nat eqn:Hlen; [|discriminate].
  intros Hq. injection Hq as ->. apply Nat.leb_le in Hlen.
  destruct (scanMention_sound _ _ _ _ _ H) as (pre & _ & _ & Hw & _).
  split; [exact Hlen|]. split; [exact Hw|].
  intros W handle w.
  destruct (handle _ (GetAuthToken false) w) as [[token|e] w0] eqn:Hauth.
  - destruct (handle _ (Fetch (OtherContactsSearch q) token) w0) as [o w1] eqn:Hf.
    rewrite (run_searchContacts_answered handle _ _ _ _ _ _ Hlen Hauth Hf).
    eexists. reflexivity.
  - rewrite (run_searchContacts_no_token handle _ _ _ _ Hlen Hauth).
    eexists. reflexivity.
Qed.

Lemma scheduled_search_runs_witness :
  (2 <= String.length "Ry")%nat /\ allWord "Ry" = true.
Proof.
  destruct (scheduled_search_runs (fun _ => (300, 40)%Z)
              {| mentionState := {| active := false; query := ""; start := 0;
                                    top := 0; left := 0 |};
                 isSearching := false; scheduled := None |}
              "Coffee with @Ry tomorrow" 15 "Ry" eq_refl) as (Hlen & Hw & _).
  split; assumption.
Defined.

(** ** [handleSelectContact] *)

(** X23. Selecting a contact leaves the text after the cursor as it was,
    puts the new cursor right after the inserted [Name <email> ] that
    follows the kept text up to and including the at sign, and closes the
    mention: the text before the new cursor matches the mention pattern no
    more. *)
Theorem select_inserts_contact (textInput : string) (mentionStart : nat)
    (selectionStart : option nat) (contact : Contact.t) :
  sliceTo (snd (handleSelectContact textInput mentionStart selectionStart contact))
          (fst (handleSelectContact textInput mentionStart selectionStart contact))
  = (sliceTo (mentionStart + 1) textInput
     ++ Contact.name contact ++ " <" ++ Contact.email contact ++ "> ")%string
  /\ sliceFrom (snd (handleSelectContact textInput mentionStart selectionStart contact))
               (fst (handleSelectContact textInput mentionStart selectionStart contact))
     = sliceFrom (match selectionStart with
                  | Some (S n) => S n
                  | _ => String.length textInput
                  end) textInput
  /\ mentionMatch
       (sliceTo (snd (handleSelectContact textInput mentionStart selectionStart contact))
                (fst (handleSelectContact textInput mentionStart selectionStart contact)))
     = None.
Proof.
  unfold handleSelectContact. cbn [fst snd].
  set (before := sliceTo (mentionStart + 1) textInput).
  set (insert := (Contact.name contact ++ " <" ++ Contact.email contact ++ "> ")%string).
  set (after := sliceFrom _ textInput).
  rewrite <- length_append, <- append_assoc.
  rewrite sliceTo_app, sliceFrom_app.
  split; [reflexivity|]. split; [reflexivity|].
  unfold mentionMatch.
  destruct (scanMention true 0 (before ++ insert)%string) as [[k q]|] eqn:H;
    [|reflexivity].
  exfalso. destruct (scanMention_sound _ _ _ _ _ H) as (pre & Ht & _ & Hq & _).
  assert (Hlast : lastChar (before ++ insert)%string = Some " "%char).
  { unfold insert. rewrite !lastChar_app. reflexivity. }
  rewrite Ht, lastChar_app in Hlast. simpl in Hlast.
  destruct (lastChar q) as [x|] eqn:Hl.
  - injection Hlast as ->. pose proof (allWord_lastChar _ _ Hq Hl). discriminate.
  - discriminate.
Qed.

(** X24. Detection and selection compose: when the text before the cursor
    at [pos] holds a mention at [index] with query [q], selecting a contact
    with that mention state and the cursor still at [pos] replaces the typed
    query by [Name <email> ] and keeps everything else, the at sign
    included. *)
Theorem select_replaces_query (textInput : string) (pos index : nat) (q : string)
    (contact : Contact.t) :
  mentionMatch (sliceTo pos textInput) = Some (index, q) ->
  fst (handleSelectContact textInput index (Some pos) contact)
  = (sliceTo index textInput ++ "@"
     ++ Contact.name contact ++ " <" ++ Contact.email contact ++ "> "
     ++ sliceFrom pos textInput)%string
  /\ sliceTo pos textInput = (sliceTo index textInput ++ String "@" q)%string.
Proof.
  unfold mentionMatch. intros H.
  destruct (scanMention_sound _ _ _ _ _ H) as (pre & Ht & Hk & _ & _).
  simpl in Hk. subst index.
  assert (Hpos : exists n, pos = S n).
  { destruct pos as [|n]; [|exists n; reflexivity].
    simpl in Ht. destruct pre; discriminate. }
  destruct Hpos as [n ->].
  pose proof (slice_split (S n) textInput) as Hsplit.
  rewrite Ht in Hsplit.
  assert (Hpre : sliceTo (String.length pre) textInput = pre).
  { rewrite <- Hsplit at 1. rewrite append_assoc. apply sliceTo_app. }
  assert (Hbefore : sliceTo (String.length pre + 1) textInput = (pre ++ "@")%string).
  { rewrite <- Hsplit at 1.
    change (pre ++ String "@" q)%string with (pre ++ ("@" ++ q))%string.
    rewrite <- (append_assoc pre "@" q), (append_assoc (pre ++ "@") q).
    replace (String.length pre + 1)%nat with (String.length (pre ++ "@")%string)
      by (rewrite length_append; reflexivity).
    apply sliceTo_app. }
  unfold handleSelectContact. cbn [fst]. rewrite Hbefore, Hpre, Ht.
  split; [|reflexivity].
  rewrite !append_assoc. reflexivity.
Qed.

Lemma select_replaces_query_witness :
  fst (handleSelectContact "Coffee with @Ry tomorrow" 12 (Some 15) ann)
  = "Coffee with @Ann <a@x.com>  tomorrow"%string.
Proof.
  rewrite (proj1 (select_replaces_query "Coffee with @Ry tomorrow" 15 12 "Ry" ann eq_refl)).
  reflexivity.
Defined.

(** ** The dropdown: filter and keys *)

Lemma prefix_append (t s : string) :
  String.prefix t s = true <-> exists b : string, s = (t ++ b)%string.
Proof.
  revert s. induction t as [|c t IH]; intros s; simpl.
  - split; [intros _; exists s; reflexivity | intros _; destruct s; reflexivity].
  - destruct s as [|c' s]; simpl.
    + split; [discriminate | intros [b H]; discriminate].
    + destruct (ascii_dec c c') as [->|Hne].
      * rewrite IH. split; intros [b H]; exists b; [rewrite H; reflexivity|].
        injection H as H. exact H.
      * split; [discriminate | intros [b H]; congruence].
Qed.

Lemma includes_occurrence (s t : string) :
  includes s t = true <-> exists a b : string, s = (a ++ t ++ b)%string.
Proof.
  induction s as [|c s IH].
  - cbn [includes]. rewrite orb_false_r, prefix_append. split.
    + intros [b H]. exists ""%string, b. exact H.
    + intros [a [b H]]. destruct a; simpl in H; [exists b; exact H|discriminate].
  - cbn [includes]. rewrite orb_true_iff, prefix_append, IH. split.
    + intros [[b H]|[a [b H]]].
      * exists ""%string, b. exact H.
      * exists (String c a), b. simpl. rewrite H. reflexivity.
    + intros [[|c' a] [b H]]; simpl in H.
      * left. exists b. exact H.
      * right. injection H as _ H. exists a, b. exact H.
Qed.

Lemma In_firstn {A : Type} (n : nat) (l : list A) (a : A) :
  In a (firstn n l) -> In a l.
Proof.
  intros H. rewrite <- (firstn_skipn n l). apply in_or_app. left. exact H.
Qed.

Lemma includes_empty (s : string) : includes s "" = true.
Proof. destruct s; reflexivity. Qed.

(** X25. The dropdown shows at most five contacts, each a held contact whose
    lower-cased name or email contains the lower-cased query as a contiguous
    run; a query that lower-cases to the empty string (a bare at sign) shows
    the first five held contacts; and when five or fewer held contacts match,
    all of them are shown. *)
Theorem dropdown_filter (toLowerCase : string -> string)
    (contacts : list Contact.t) (q : string) :
  (List.length (filtered toLowerCase contacts q) <= 5)%nat
  /\ (forall c, In c (filtered toLowerCase contacts q) ->
        In c contacts
        /\ exists a b : string,
             toLowerCase (Contact.name c) = (a ++ toLowerCase q ++ b)%string
             \/ toLowerCase (Contact.email c) = (a ++ toLowerCase q ++ b)%string)
  /\ (toLowerCase q = ""%string -> filtered toLowerCase contacts q = firstn 5 contacts)
  /\ ((List.length (filter (matchesQuery toLowerCase q) contacts) <= 5)%nat ->
      forall c, In c contacts -> matchesQuery toLowerCase q c = true ->
                In c (filtered toLowerCase contacts q)).
Proof.
  unfold filtered. split; [apply firstn_le_length|]. split; [|split].
  - intros c Hin. apply In_firstn in Hin. apply filter_In in Hin.
    destruct Hin as [Hin Hm]. split; [exact Hin|].
    unfold matchesQuery in Hm. apply orb_prop in Hm.
    destruct Hm as [Hm|Hm]; apply includes_occurrence in Hm;
      destruct Hm as [a [b H]]; exists a, b; [left | right]; exact H.
  - intros Hq. f_equal.
    assert (Hall : forall c, matchesQuery toLowerCase q c = true).
    { intros c. unfold matchesQuery. rewrite Hq, includes_empty. reflexivity. }
    induction contacts as [|c l IH]; simpl; [reflexivity|].
    rewrite Hall, IH. reflexivity.
  - intros Hlen c Hin Hm. rewrite firstn_all2 by exact Hlen.
    apply filter_In. split; assumption.
Qed.

Lemma dropdown_filter_witness :
  filtered (fun s => s) [ann; bob; carol] "" = [ann; bob; carol]
  /\ In carol (filtered (fun s => s) [ann; bob; carol] "car").
Proof.
  destruct (dropdown_filter (fun s => s) [ann; bob; carol] "") as (_ & _ & Hall & _).
  destruct (dropdown_filter (fun s => s) [ann; bob; carol] "car") as (_ & _ & _ & Hfew).
  split.
  - rewrite (Hall eq_refl). reflexivity.
  - apply Hfew; [simpl; lia | simpl; auto | reflexivity].
Defined.

Lemma itemAt_In (l : list Contact.t) (i : Z) :
  (0 <= i < Z.of_nat (List.length l))%Z ->
  exists c, itemAt l i = Some c /\ In c l.
Proof.
  intros [Hlo Hhi]. unfold itemAt.
  destruct (i <? 0)%Z eqn:E; [apply Z.ltb_lt in E; lia|].
  destruct (nth_error l (Z.to_nat i)) as [c|] eqn:Hn.
  - exists c. split; [reflexivity | exact (nth_error_In _ _ Hn)].
  - apply nth_error_None in Hn. lia.
Qed.

(** X26. With the dropdown idle and the selected index within the list:
    ArrowDown moves to the next index and from the last to the first,
    ArrowUp moves to the previous index and from the first to the last, so
    the index stays within the list and each key undoes the other; Enter
    and Tab select the contact at the index, which is one of the list. *)
Theorem dropdown_keys (shown : list Contact.t) (i : Z) :
  (0 <= i < Z.of_nat (List.length shown))%Z ->
  (exists j,
      handleKeyDown shown false i "ArrowDown" = SetSelectedIndex j
      /\ j = (if (i + 1 <? Z.of_nat (List.length shown))%Z then i + 1 else 0)%Z
      /\ (0 <= j < Z.of_nat (List.length shown))%Z
      /\ handleKeyDown shown false j "ArrowUp" = SetSelectedIndex i)
  /\ (exists j,
         handleKeyDown shown false i "ArrowUp" = SetSelectedIndex j
         /\ j = (if (0 <? i)%Z then i - 1 else Z.of_nat (List.length shown) - 1)%Z
         /\ (0 <= j < Z.of_nat (List.length shown))%Z
         /\ handleKeyDown shown false j "ArrowDown" = SetSelectedIndex i)
  /\ (exists c,
         handleKeyDown shown false i "Enter" = OnSelect (Some c)
         /\ handleKeyDown shown false i "Tab" = OnSelect (Some c)
         /\ In c shown).
Proof.
  intros Hi.
  assert (Hlen : (List.length shown =? 0)%nat = false)
    by (apply Nat.eqb_neq; lia).
  set (n := Z.of_nat (List.length shown)) in *.
  assert (Hdown : forall k, (0 <= k < n)%Z ->
            Z.rem (k + 1) n = (if (k + 1 <? n)%Z then k + 1 else 0)%Z).
  { intros k Hk. destruct (k + 1 <? n)%Z eqn:E.
    - apply Z.ltb_lt in E. apply Z.rem_small. lia.
    - apply Z.ltb_ge in E. replace (k + 1)%Z with n by lia.
      apply Z.rem_same. lia. }
  assert (Hup : forall k, (0 <= k < n)%Z ->
            Z.rem (k - 1 + n) n = (if (0 <? k)%Z then k - 1 else n - 1)%Z).
  { intros k Hk. destruct (0 <? k)%Z eqn:E.
    - apply Z.ltb_lt in E. rewrite Z.rem_mod_nonneg by lia.
      replace (k - 1 + n)%Z with (k - 1 + 1 * n)%Z by lia.
      rewrite Z_mod_plus_full. apply Z.mod_small. lia.
    - apply Z.ltb_ge in E. replace (k - 1 + n)%Z with (n - 1)%Z by lia.
      apply Z.rem_small. lia. }
  unfold handleKeyDown. rewrite Hlen. cbn [orb String.eqb Ascii.eqb Bool.eqb].
  fold n. split; [|split].
  - eexists. split; [reflexivity|]. rewrite (Hdown i Hi).
    split; [reflexivity|].
    assert (Hj : (0 <= (if (i + 1 <? n)%Z then i + 1 else 0) < n)%Z).
    { destruct (i + 1 <? n)%Z eqn:E; [apply Z.ltb_lt in E|]; lia. }
    split; [exact Hj|]. rewrite (Hup _ Hj). f_equal.
    destruct (i + 1 <? n)%Z eqn:E.
    + assert (H0 : (0 <? i + 1)%Z = true) by (apply Z.ltb_lt; lia).
      rewrite H0. lia.
    + apply Z.ltb_ge in E. simpl. lia.
  - eexists. split; [reflexivity|]. rewrite (Hup i Hi).
    split; [reflexivity|].
    assert (Hj : (0 <= (if (0 <? i)%Z then i - 1 else n - 1) < n)%Z).
    { destruct (0 <? i)%Z eqn:E; [apply Z.ltb_lt in E|]; lia. }
    split; [exact Hj|]. rewrite (Hdown _ Hj). f_equal.
    destruct (0 <? i)%Z eqn:E.
    + apply Z.ltb_lt in E.
      assert (H0 : (i - 1 + 1 <? n)%Z = true) by (apply Z.ltb_lt; lia).
      rewrite H0. lia.
    + apply Z.ltb_ge in E.
      assert (H0 : (n - 1 + 1 <? n)%Z = false) by (apply Z.ltb_ge; lia).
      rewrite H0. lia.
  - destruct (itemAt_In shown i Hi) as [c [Hc Hin]].
    exists c. rewrite Hc. repeat split; [exact Hin].
Qed.

Lemma dropdown_keys_witness :
  handleKeyDown [ann; bob; carol] false 2 "ArrowDown" = SetSelectedIndex 0
  /\ handleKeyDown [ann; bob; carol] false 0 "ArrowUp" = SetSelectedIndex 2.
Proof.
  destruct (dropdown_keys [ann; bob; carol] 2 ltac:(simpl; lia))
    as ((j & Hdown & -> & _ & Hup) & _).
  split; [exact Hdown | exact Hup].
Defined.

(** ** The plan [handleGenerate] builds *)





